(** * tools/autoware-interfaces/generate.py

    A shallow embedding of the documentation generator: the front-matter
    loader, the type-name helpers, the work-queue resolver, the dependency
    graph, the clean-up of the type pages and the table formatter, followed
    by the properties stated about them.

    Python strings are [string] (their UTF-8 bytes), sets are
    [gset string], dictionaries are insertion-ordered association lists
    ([dict]), and a raised exception is the [Raise] branch of [result]. *)

From Stdlib Require Import Ascii String.
From stdpp Require Import base option list sets gmap strings sorting relations.

Open Scope string_scope.
Open Scope list_scope.
Open Scope nat_scope.

(** ** Exceptions *)

Inductive exn : Type :=
| ValueError
| KeyError (msg : string)
| TypeError
| IndexError
| OSError
| ExternalError (msg : string).

Inductive result (A : Type) : Type :=
| Ok (a : A)
| Raise (e : exn).
Arguments Ok {A} a.
Arguments Raise {A} e.

Global Instance result_ret : MRet result := fun A a => Ok a.

Global Instance result_bind : MBind result := fun A B k r =>
  match r with
  | Ok a => k a
  | Raise e => Raise e
  end.

(** ** Python string helpers *)

(** [s.split(sep)] for a one-character separator: never empty, and a
    string without the separator is its own single part. *)
Fixpoint str_split (sep : ascii) (s : string) : list string :=
  match s with
  | EmptyString => [EmptyString]
  | String c rest =>
      if Ascii.eqb c sep then EmptyString :: str_split sep rest
      else match str_split sep rest with
           | [] => [String c EmptyString]
           | part :: parts => String c part :: parts
           end
  end.

(** [sep.join(parts)]. *)
Fixpoint str_join (sep : string) (parts : list string) : string :=
  match parts with
  | [] => ""
  | [p] => p
  | p :: ps => p +:+ sep +:+ str_join sep ps
  end.

(** [c in s] for a character. *)
Fixpoint has_char (c : ascii) (s : string) : bool :=
  match s with
  | EmptyString => false
  | String a rest => Ascii.eqb a c || has_char c rest
  end.

(** [c * n]. *)
Fixpoint repeat_char (c : ascii) (n : nat) : string :=
  match n with
  | O => ""
  | S k => String c (repeat_char c k)
  end.

(** A [string] holds the UTF-8 bytes of a Python string.  Splitting at an
    ASCII character, concatenation and comparison act on the bytes as they
    do on the characters; the length does not.  [len(s)] counts the
    characters (code points), each of which has exactly one byte that is
    not a continuation byte [10xxxxxx]. *)
Definition is_continuation (c : ascii) : bool :=
  match c with
  | Ascii _ _ _ _ _ _ b6 b7 => b7 && negb b6
  end.

Fixpoint py_len (s : string) : nat :=
  match s with
  | EmptyString => 0
  | String c rest => (if is_continuation c then 0 else 1) + py_len rest
  end.

(** ** Type names *)

Definition targets : list string :=
  ["autoware_adapi_version_msgs"; "autoware_adapi_v1_msgs"].

Definition is_documentation_msg (name : string) : bool :=
  match str_split "/" name with
  | first :: _ => bool_decide (first ∈ targets)
  | [] => false
  end.

Definition strip_array_suffix (name : string) : string :=
  match str_split "[" name with
  | first :: _ => first
  | [] => name
  end.

Definition normalize_msg_name (name : string) : string :=
  match str_split "/" name with
  | [] => name
  | [p0] => p0
  | p0 :: p1 :: _ => p0 +:+ "/msg/" +:+ p1
  end.

(** ** Dictionaries

    A Python [dict] keeps its keys in insertion order: assigning to a key
    that is present replaces the value in place, assigning to a new key
    appends it. *)

Abbreviation dict V := (list (string * V)).

Fixpoint dict_get {V : Type} (k : string) (d : dict V) : option V :=
  match d with
  | [] => None
  | (k', v) :: rest => if decide (k' = k) then Some v else dict_get k rest
  end.

Fixpoint dict_set {V : Type} (k : string) (v : V) (d : dict V) : dict V :=
  match d with
  | [] => [(k, v)]
  | (k', v') :: rest =>
      if decide (k' = k) then (k, v) :: rest else (k', v') :: dict_set k v rest
  end.

Definition dict_keys {V : Type} (d : dict V) : list string := d.*1.

Definition dict_values {V : Type} (d : dict V) : list V := d.*2.

(** [d[k]], which raises [KeyError] on a missing key. *)
Definition dict_item {V : Type} (k : string) (d : dict V) : result V :=
  match dict_get k d with
  | Some v => Ok v
  | None => Raise (KeyError k)
  end.

(** A fold whose body may raise. *)
Fixpoint foldM {A S : Type} (f : S -> A -> result S) (s : S) (l : list A)
  : result S :=
  match l with
  | [] => Ok s
  | a :: rest => s' ← f s a; foldM f s' rest
  end.

(** ** Front matter *)

(** The values [yaml.safe_load] hands back from a block of front matter:
    null for an empty block, scalars, sequences and mappings. *)
#[warnings="-register-all"]
Inductive yaml : Type :=
| YNull
| YBool (b : bool)
| YInt (z : Z)
| YStr (s : string)
| YSeq (items : list yaml)
| YMap (items : list (yaml * yaml)).

(** The YAML parser is an external library. *)
Class YamlLoader := { safe_load : string -> result yaml }.

Definition is_str (s : string) (y : yaml) : bool :=
  match y with
  | YStr t => bool_decide (t = s)
  | _ => false
  end.

Definition is_substring (needle s : string) : bool :=
  match String.index 0 needle s with
  | Some _ => true
  | None => false
  end.

(** [needle in data]: key membership on a mapping, element membership on a
    sequence, substring test on a string, [TypeError] on the scalars that
    are not containers. *)
Definition py_in (needle : string) (data : yaml) : result bool :=
  match data with
  | YMap items => Ok (existsb (is_str needle) items.*1)
  | YSeq items => Ok (existsb (is_str needle) items)
  | YStr s => Ok (is_substring needle s)
  | YNull | YBool _ | YInt _ => Raise TypeError
  end.

(** [data[key]] on a mapping. *)
Fixpoint yaml_items_get (key : string) (items : list (yaml * yaml)) : option yaml :=
  match items with
  | [] => None
  | (k, v) :: rest => if is_str key k then Some v else yaml_items_get key rest
  end.

Definition yaml_get (key : string) (data : yaml) : option yaml :=
  match data with
  | YMap items => yaml_items_get key items
  | _ => None
  end.

Definition test_markdown_metadata (data : yaml) (path : string) : result yaml :=
  found ← py_in "status" data;
  if negb found then Raise (KeyError ("status in " +:+ path)) else Ok data.

Fixpoint list_index (x : string) (l : list string) : option nat :=
  match l with
  | [] => None
  | y :: rest => if decide (y = x) then Some 0 else S <$> list_index x rest
  end.

(** [l.index(x, start)]. *)
Definition index_from (x : string) (start : nat) (l : list string) : result nat :=
  match list_index x (drop start l) with
  | Some i => Ok (start + i)
  | None => Raise ValueError
  end.

(** [l[i:j]]. *)
Definition slice {A : Type} (i j : nat) (l : list A) : list A :=
  take (j - i) (drop i l).

Definition newline : string := String (ascii_of_nat 10) "".

(** [lines] is [path.read_text().splitlines()]; [Ok None] is Python's
    [return None]. *)
Definition load_markdown_metadata `{YamlLoader} (lines : list string) (path : string)
  : result (option yaml) :=
  if bool_decide (2 < length lines) && bool_decide (head lines = Some "---") then
    stop ← index_from "---" 1 lines;
    let data := slice 1 stop lines in
    data ← safe_load (str_join newline data);
    page ← test_markdown_metadata data path;
    Ok (Some page)
  else Ok None.

(** ** The resolver *)

Record Field := { field_name : string; field_type : string }.

Record MessageSpecification := { fields : list Field }.

Record ServiceSpecification :=
  { request : MessageSpecification; response : MessageSpecification }.

(** The schema parser, the package index and [pathlib] are external
    libraries.  [schema_path share ext msg] stands for
    [Path(share).joinpath(ext, msg).with_suffix("." + ext)], which raises
    [ValueError] when [pathlib] refuses the suffix (an empty [ext] makes it
    a lone dot). *)
Class Rosidl := {
  Path : Type;
  get_package_share_directory : string -> result string;
  schema_path : string -> string -> string -> result Path;
  parse_message_file : string -> Path -> result MessageSpecification;
  parse_service_file : string -> Path -> result ServiceSpecification
}.

Definition resolve_msg_file_path `{Rosidl} (name : string) : result Path :=
  match str_split "/" name with
  | [pkg; ext; msg] =>
      share ← get_package_share_directory pkg;
      schema_path share ext msg
  | _ => Raise ValueError
  end.

Record state := {
  depends : gset string;
  visited : gset string;
  specs : dict (dict (dict string))
}.

Definition parse_rosidl_spec (depends visited : gset string)
    (spec : MessageSpecification) : gset string * dict string :=
  let fields :=
    foldl (fun d f => dict_set (field_name f) (normalize_msg_name (field_type f)) d)
          [] (fields spec) in
  let depends :=
    foldl (fun dep value =>
             let name := strip_array_suffix value in
             if decide (name ∈ visited) then dep else {[name]} ∪ dep)
          depends (dict_values fields) in
  (depends, fields).

(** [{k: v for k, v in entry.items() if v}]: an empty field map is falsy. *)
Definition prune (entry : dict (dict string)) : dict (dict string) :=
  filter (fun kv => kv.2 ≠ []) entry.

Definition store (name : string) (entry : dict (dict string))
    (specs : dict (dict (dict string))) : result (dict (dict (dict string))) :=
  let specs := dict_set name entry specs in
  entry ← dict_item name specs;
  Ok (dict_set name (prune entry) specs).

Definition parse_rosidl_file `{Rosidl} (st : state) (name : string) : result state :=
  let visited := {[name]} ∪ visited st in
  if is_documentation_msg name then
    match str_split "/" name with
    | [pkg; ext; msg] =>
        st ← (if decide (ext = "msg") then
                path ← resolve_msg_file_path name;
                msg ← parse_message_file pkg path;
                let '(depends, msg) := parse_rosidl_spec (depends st) visited msg in
                specs ← store name [("msg", msg)] (specs st);
                Ok {| depends := depends; visited := visited; specs := specs |}
              else
                Ok {| depends := depends st; visited := visited; specs := specs st |});
        if decide (ext = "srv") then
          path ← resolve_msg_file_path name;
          srv ← parse_service_file pkg path;
          let '(depends, req) := parse_rosidl_spec (depends st) visited (request srv) in
          let '(depends, res) := parse_rosidl_spec depends visited (response srv) in
          specs ← store name [("req", req); ("res", res)] (specs st);
          Ok {| depends := depends; visited := visited; specs := specs |}
        else Ok st
    | _ => Raise ValueError
    end
  else Ok {| depends := depends st; visited := visited; specs := specs st |}.

(** The state before the loop of [main]: nothing visited, nothing stored,
    the seed names pending. *)
Definition initial (names : gset string) : state :=
  {| depends := names; visited := ∅; specs := [] |}.

(** One iteration of [while depends: name = depends.pop(); ...]: [set.pop]
    removes an arbitrary element. *)
Definition iteration `{Rosidl} (st st' : state) : Prop :=
  ∃ name, name ∈ depends st ∧
    parse_rosidl_file
      {| depends := depends st ∖ {[name]}; visited := visited st; specs := specs st |}
      name = Ok st'.

(** The loop leaves [st'] when it reaches it with nothing pending. *)
Definition completes `{Rosidl} (names : gset string) (st' : state) : Prop :=
  rtc iteration (initial names) st' ∧ depends st' = ∅.

Inductive outcome : Type :=
| Finished (st : state)
| Aborted (e : exn)
| OutOfFuel.

(** The loop run with a given choice for [set.pop]. *)
Fixpoint resolve_loop `{Rosidl} (pop : gset string -> string) (fuel : nat) (st : state)
  : outcome :=
  if decide (depends st = ∅) then Finished st
  else match fuel with
       | O => OutOfFuel
       | S fuel =>
           let name := pop (depends st) in
           match parse_rosidl_file
                   {| depends := depends st ∖ {[name]};
                      visited := visited st; specs := specs st |} name with
           | Ok st' => resolve_loop pop fuel st'
           | Raise e => Aborted e
           end
       end.

(** A choice for [set.pop]: the first element in the set's listing. *)
Definition pop_first (s : gset string) : string := default "" (head (elements s)).

(** ** The YAML export *)

(** The representation graph the dumper builds before it emits text. *)
#[warnings="-register-all"]
Inductive node : Type :=
| ScalarNode (value : string)
| MappingNode (items : list (node * node)).

(** The order of [sorted] on the items of a mapping with string keys. *)
Definition key_le {V : Type} (p q : string * V) : Prop := String.le p.1 q.1.

Global Instance key_le_dec {V : Type} : RelDecision (@key_le V).
Proof. intros p q. unfold key_le. apply _. Defined.

(** [represent_mapping] with the dumper's default [sort_keys=True]. *)
Definition represent_dict {V : Type} (represent : V -> node) (d : dict V) : node :=
  MappingNode
    ((fun kv => (ScalarNode kv.1, represent kv.2)) <$> merge_sort key_le d).

Definition represent_fields : dict string -> node := represent_dict ScalarNode.

Definition represent_entry : dict (dict string) -> node :=
  represent_dict represent_fields.

Definition represent_specs : dict (dict (dict string)) -> node :=
  represent_dict represent_entry.

(** [emit] stands for the block-style serializer of [MyDumper], applied to
    the representation graph. *)
Definition yaml_dump (emit : node -> string) (specs : dict (dict (dict string)))
  : string :=
  emit (represent_dict represent_specs [("types", specs)]).

(** ** The dependency graph *)

(** [d[k].add(x)]. *)
Definition set_add_at (k x : string) (d : dict (gset string))
  : result (dict (gset string)) :=
  s ← dict_item k d;
  Ok (dict_set k ({[x]} ∪ s) d).

Definition record_use (user : string)
    (g : dict (gset string) * dict (gset string)) (value : string)
  : result (dict (gset string) * dict (gset string)) :=
  let name := strip_array_suffix value in
  if is_documentation_msg name then
    type_uses ← set_add_at user name g.1;
    type_used ← set_add_at name user g.2;
    Ok (type_uses, type_used)
  else Ok g.

Definition empty_sets (specs : dict (dict (dict string))) : dict (gset string) :=
  (fun kv => (kv.1, ∅)) <$> specs.

(** The part of [main] under "Create data type dependencies": the pair
    [(type_uses, type_used)]. *)
Definition dependency_graph (specs : dict (dict (dict string)))
  : result (dict (gset string) * dict (gset string)) :=
  foldM (fun g item =>
           foldM (fun g field => foldM (record_use item.1) g (dict_values field))
                 g (dict_values item.2))
        (empty_sets specs, empty_sets specs) specs.

(** [d[k]] of a dictionary of sets, read as the empty set off its keys. *)
Definition set_at (d : dict (gset string)) (k : string) : gset string :=
  default ∅ (dict_get k d).

(** ** Clean-up of the type pages *)

(** What the directory of the type pages holds under a name: a regular
    file, a directory with its own content, or a symbolic link.  A link is
    described by what following it comes to: whether it leads to a
    directory in the tree as it is before the loop ([to_dir]), and which
    directories directly under the root it passes through or ends at
    ([through]). *)
#[warnings="-register-all"]
Inductive entry : Type :=
| RegularFile (content : string)
| Directory (children : gmap string entry)
| Symlink (to_dir : bool) (through : list string).

Definition is_directory (e : entry) : bool :=
  match e with
  | Directory _ => true
  | _ => false
  end.

(** [path.is_dir()] for the path of [name], in the root as it is at the
    time of the call: a link is followed, and it leads nowhere once one of
    the directories it passes through is gone; a name that is not there is
    no directory. *)
Definition is_dir (root : gmap string entry) (name : string) : bool :=
  match root !! name with
  | Some (RegularFile _) => false
  | Some (Directory _) => true
  | Some (Symlink to_dir through) =>
      to_dir && forallb (fun via => bool_decide (is_Some (root !! via))) through
  | None => false
  end.

(** [shutil.rmtree(path)] removes a directory with all its content and
    raises [OSError] for a symbolic link, as for any other path that is
    not a directory. *)
Definition rmtree (name : string) (root : gmap string entry)
  : result (gmap string entry) :=
  match root !! name with
  | Some (Directory _) => Ok (delete name root)
  | _ => Raise OSError
  end.

(** [for path in base.iterdir(): if path.is_dir(): shutil.rmtree(path)]
    over the names [iterdir] has listed; the root as it is when the loop
    ends or raises is returned with the outcome. *)
Fixpoint clean_up_loop (listing : list string) (root : gmap string entry)
  : gmap string entry * result () :=
  match listing with
  | [] => (root, Ok ())
  | name :: rest =>
      if is_dir root name then
        match rmtree name root with
        | Ok root' => clean_up_loop rest root'
        | Raise err => (root, Raise err)
        end
      else clean_up_loop rest root
  end.

(** [base.iterdir()] lists every name of the directory once, in an order
    that is not specified. *)
Definition iterdir (root : gmap string entry) (listing : list string) : Prop :=
  listing ≡ₚ (map_to_list root).*1.

(** ** The table formatter *)

(** A parsed format string: literal text and replacement fields [{:width}]. *)
Inductive piece : Type :=
| Lit (text : string)
| Fld (width : nat).

(** [sep.join(...)] on format-string fragments. *)
Fixpoint join_pieces (sep : piece) (ps : list piece) : list piece :=
  match ps with
  | [] => []
  | [p] => [p]
  | p :: rest => p :: sep :: join_pieces sep rest
  end.

(** The field [{:width}] applied to a string: left-aligned, padded with
    spaces up to [width] characters, never truncated ([{:0}] sets no
    minimum width). *)
Definition pad (width : nat) (s : string) : string :=
  s +:+ repeat_char " " (width - py_len s).

(** [str.format] on a parsed template: fields take the arguments in order; surplus
    arguments are ignored and a missing one is an [IndexError]. *)
Fixpoint str_format (template : list piece) (args : list string) : result string :=
  match template with
  | [] => Ok ""
  | Lit text :: template =>
      rest ← str_format template args;
      Ok (text +:+ rest)
  | Fld width :: template =>
      match args with
      | [] => Raise IndexError
      | arg :: args =>
          rest ← str_format template args;
          Ok (pad width arg +:+ rest)
      end
  end.

Fixpoint mapM {A B : Type} (f : A -> result B) (l : list A) : result (list B) :=
  match l with
  | [] => Ok []
  | a :: rest => b ← f a; bs ← mapM f rest; Ok (b :: bs)
  end.

(** [map(max, zip(map(len, line), widths))]: [zip] stops at the shorter. *)
Definition widen (widths : list nat) (line : list string) : list nat :=
  zip_with Nat.max (py_len <$> line) widths.

Definition column_widths (data : list (list string)) (header : list string)
  : list nat :=
  foldl widen (py_len <$> header) data.

Definition tabulate (data : list (list string)) (header : list string)
  : result string :=
  let widths := column_widths data header in
  let template :=
    (Lit "| " :: join_pieces (Lit " | ") (Fld <$> widths) ++ [Lit " |"])%list in
  let border := repeat_char "-" <$> widths in
  lines ← mapM (str_format template) (header :: border :: data);
  Ok (str_join newline lines).

(** ** What one visit reads from the corpus

    The effect of [parse_rosidl_file] on a name, apart from the two sets:
    the entry it stores, if any, and the names its fields refer to. *)

(** The dictionary [fields] of [parse_rosidl_spec]. *)
Definition field_map (spec : MessageSpecification) : dict string :=
  foldl (fun d f => dict_set (field_name f) (normalize_msg_name (field_type f)) d)
        [] (fields spec).

(** The names [parse_rosidl_spec] looks up in [visited]. *)
Definition references (spec : MessageSpecification) : list string :=
  strip_array_suffix <$> dict_values (field_map spec).

Definition visit `{Rosidl} (name : string)
  : result (option (dict (dict string)) * list string) :=
  if is_documentation_msg name then
    match str_split "/" name with
    | [pkg; ext; msg] =>
        if decide (ext = "msg") then
          path ← resolve_msg_file_path name;
          msg ← parse_message_file pkg path;
          Ok (Some (prune [("msg", field_map msg)]), references msg)
        else if decide (ext = "srv") then
          path ← resolve_msg_file_path name;
          srv ← parse_service_file pkg path;
          Ok (Some (prune [("req", field_map (request srv));
                           ("res", field_map (response srv))]),
              references (request srv) ++ references (response srv))
        else Ok (None, [])
    | _ => Raise ValueError
    end
  else Ok (None, []).

Definition entry_of `{Rosidl} (name : string) : option (dict (dict string)) :=
  match visit name with
  | Ok (entry, _) => entry
  | Raise _ => None
  end.

Definition refs_of `{Rosidl} (name : string) : list string :=
  match visit name with
  | Ok (_, refs) => refs
  | Raise _ => []
  end.

(** The names the traversal can come to from the seed names. *)
Inductive reachable `{Rosidl} (names : gset string) : string -> Prop :=
| reachable_seed name : name ∈ names -> reachable names name
| reachable_ref name ref :
    reachable names name -> ref ∈ refs_of name -> reachable names ref.

(** Every type name a schema file of the corpus mentions lies in
    [universe]. *)
Definition corpus_within `{Rosidl} (universe : gset string) : Prop :=
  (∀ pkg path msg, parse_message_file pkg path = Ok msg →
     ∀ ref, ref ∈ references msg → ref ∈ universe) ∧
  (∀ pkg path srv, parse_service_file pkg path = Ok srv →
     ∀ ref, ref ∈ references (request srv) ++ references (response srv) →
            ref ∈ universe).

(** ** The loop invariant *)

(** The state a successful visit of [name] leaves, given what it read. *)
Definition apply_visit (st : state) (name : string)
    (r : option (dict (dict string)) * list string) : state :=
  {| depends := depends st ∪ (list_to_set r.2 ∖ ({[name]} ∪ visited st));
     visited := {[name]} ∪ visited st;
     specs := match r.1 with
              | Some entry => dict_set name entry (specs st)
              | None => specs st
              end |}.

Record invariant `{Rosidl} (names : gset string) (st : state) : Prop := {
  inv_reachable : ∀ n, n ∈ visited st ∪ depends st → reachable names n;
  inv_seeds : ∀ n, n ∈ names → n ∈ visited st ∪ depends st;
  inv_closed : ∀ n m, n ∈ visited st → m ∈ refs_of n → m ∈ visited st ∪ depends st;
  inv_specs : ∀ n, dict_get n (specs st)
                   = if decide (n ∈ visited st) then entry_of n else None;
  inv_disjoint : ∀ n, n ∈ depends st → n ∉ visited st;
  inv_nodup : NoDup (dict_keys (specs st));
  inv_visit : ∀ n, n ∈ visited st → ∃ r, visit n = Ok r
}.

(** ** Relations used in the statements *)

(** The type [a] has a field whose type, array suffix dropped, is the
    documentation type [b]. *)
Definition has_field_of (specs : dict (dict (dict string))) (a b : string) : Prop :=
  ∃ entry fields value,
    (a, entry) ∈ specs ∧ fields ∈ dict_values entry ∧
    value ∈ dict_values fields ∧
    b = strip_array_suffix value ∧ is_documentation_msg b = true.

(** The pairs (user, field type) in the order the three nested loops of the
    dependency computation meet them. *)
Definition field_uses (specs : dict (dict (dict string))) : list (string * string) :=
  item ← specs;
  fields ← dict_values item.2;
  (fun value => (item.1, value)) <$> dict_values fields.

(** The loop comes to a link while the link still leads to a directory:
    the link led to one before the loop, and none of the directories it
    passes through has been listed, and so removed, before it. *)
Definition refuses (root : gmap string entry) (listing : list string) : Prop :=
  ∃ before name after through,
    listing = before ++ name :: after ∧
    root !! name = Some (Symlink true through) ∧
    ∀ via, via ∈ through →
      is_Some (root !! via) ∧
      ¬ (via ∈ before ∧ ∃ children, root !! via = Some (Directory children)).

(** A file that qualifies, in the words of the specification: the marker
    is the first line and occurs again further down. *)
Definition has_delimiter_block (lines : list string) : bool :=
  match lines with
  | first :: rest => bool_decide (first = "---") && bool_decide ("---" ∈ rest)
  | [] => false
  end.

(** The text of one table row for given column widths, as the
    specification words it: every cell padded to its column's width,
    between [| ] and [ |] and separated by [ | ]. *)
Definition row_text (widths : list nat) (line : list string) : string :=
  "| " +:+ str_join " | " (zip_with pad widths line) +:+ " |".

(** ** Concrete collaborators

    Small stand-ins for the external libraries, used to run the definitions
    above on concrete inputs. *)

Fixpoint lstrip (s : string) : string :=
  match s with
  | String c rest => if Ascii.eqb c " " then lstrip rest else s
  | EmptyString => s
  end.

Definition flat_line (line : string) : yaml * yaml :=
  match str_split ":" line with
  | key :: value :: _ => (YStr key, YStr (lstrip value))
  | _ => (YStr line, YNull)
  end.

(** The parser on a block of [key: value] lines with plain scalars; the
    empty document loads as null. *)
Definition flat_loader : YamlLoader :=
  {| safe_load text :=
       if decide (text = "") then Ok YNull
       else Ok (YMap (flat_line <$> str_split (ascii_of_nat 10) text)) |}.


Definition field (name type : string) : Field :=
  {| field_name := name; field_type := type |}.

(** A corpus of five schema files: one service and the four messages it
    leads to, with references to other packages and to built-in types. *)
Definition demo_message (path : string) : result MessageSpecification :=
  if decide (path = "/share/autoware_adapi_v1_msgs/msg/RouteOption.msg") then
    Ok {| fields := [field "allow_goal_modification" "bool"] |}
  else if decide (path = "/share/autoware_adapi_v1_msgs/msg/RouteSegment.msg") then
    Ok {| fields := [field "preferred" "autoware_adapi_v1_msgs/RoutePrimitive";
                     field "alternatives" "autoware_adapi_v1_msgs/RoutePrimitive[]"] |}
  else if decide (path = "/share/autoware_adapi_v1_msgs/msg/RoutePrimitive.msg") then
    Ok {| fields := [field "id" "int64"; field "type" "string"] |}
  else if decide (path = "/share/autoware_adapi_v1_msgs/msg/ResponseStatus.msg") then
    Ok {| fields := [field "success" "bool"; field "code" "uint16";
                     field "message" "string"] |}
  else Raise (ExternalError path).

Definition demo_service (path : string) : result ServiceSpecification :=
  if decide (path = "/share/autoware_adapi_v1_msgs/srv/SetRoute.srv") then
    Ok {| request :=
            {| fields := [field "header" "std_msgs/Header";
                          field "goal" "geometry_msgs/Pose";
                          field "option" "autoware_adapi_v1_msgs/RouteOption";
                          field "segments" "autoware_adapi_v1_msgs/RouteSegment[]"] |};
          response :=
            {| fields := [field "status" "autoware_adapi_v1_msgs/ResponseStatus"] |} |}
  else Raise (ExternalError path).

Definition demo_rosidl : Rosidl :=
  {| Path := string;
     get_package_share_directory pkg := Ok ("/share/" +:+ pkg);
     schema_path share ext msg :=
       if decide (ext = "") then Raise ValueError
       else Ok (share +:+ "/" +:+ ext +:+ "/" +:+ msg +:+ "." +:+ ext);
     parse_message_file pkg path := demo_message path;
     parse_service_file pkg path := demo_service path |}.

Definition demo_names : gset string := {["autoware_adapi_v1_msgs/srv/SetRoute"]}.

Definition demo_universe : gset string :=
  list_to_set
    ["autoware_adapi_v1_msgs/srv/SetRoute";
     "autoware_adapi_v1_msgs/msg/RouteOption";
     "autoware_adapi_v1_msgs/msg/RouteSegment";
     "autoware_adapi_v1_msgs/msg/RoutePrimitive";
     "autoware_adapi_v1_msgs/msg/ResponseStatus";
     "std_msgs/msg/Header"; "geometry_msgs/msg/Pose";
     "bool"; "int64"; "string"; "uint16"].

(** Another choice for [set.pop]: the last element in the set's listing. *)
Definition pop_last (s : gset string) : string := default "" (last (elements s)).

Definition final_state (o : outcome) : state :=
  match o with
  | Finished st => st
  | _ => initial ∅
  end.

Definition demo_final : state :=
  final_state (resolve_loop (H := demo_rosidl) pop_first 11 (initial demo_names)).

Definition demo_final_last : state :=
  final_state (resolve_loop (H := demo_rosidl) pop_last 11 (initial demo_names)).

(** A directory of type pages: the index, the pages of one package and a
    link to them, with one order of listing it. *)
Definition demo_root : gmap string entry :=
  <["index.md" := RegularFile "# Types"]>
    (<["autoware_adapi_v1_msgs" :=
         Directory (<["msg" := Directory ∅]> ∅)]>
       (<["latest" := Symlink true ["autoware_adapi_v1_msgs"]]> ∅)).

Definition demo_listing : list string :=
  ["autoware_adapi_v1_msgs"; "latest"; "index.md"].

(** ** The pages of [main] *)

(** Python's truth value of a loaded value. *)
Definition truthy (data : yaml) : bool :=
  match data with
  | YNull => false
  | YBool b => b
  | YInt z => negb (Z.eqb z 0)
  | YStr s => negb (bool_decide (s = ""))
  | YSeq items => negb (bool_decide (items = []))
  | YMap items => negb (bool_decide (items = []))
  end.

(** [[page for page in pages if page]]: [None] and every other value that
    is not true are dropped. *)
Definition keep_truthy (pages : list (option yaml)) : list yaml :=
  omap (fun page =>
          match page with
          | Some data => if truthy data then Some data else None
          | None => None
          end) pages.

(** The pages of [main], over the files of the glob, each given by its
    path and its lines; a file the loader skips yields [None]. *)
Definition load_pages `{YamlLoader} (files : list (string * list string))
  : result (list yaml) :=
  pages ← mapM (fun file => load_markdown_metadata file.2 file.1) files;
  Ok (keep_truthy pages).

(** [sorted(s)] for a set of strings. *)
Definition sorted_set (s : gset string) : list string :=
  merge_sort String.le (elements s).

(** The values of the front matter of a type page: the title, a string,
    and the two lists of names. *)
Inductive front_value : Type :=
| FrontStr (s : string)
| FrontList (names : list string).

Definition front_truthy (v : front_value) : bool :=
  match v with
  | FrontStr s => negb (bool_decide (s = ""))
  | FrontList names => negb (bool_decide (names = []))
  end.

(** The dictionary [data] of a type page, after
    [{k: v for k, v in data.items() if v}]. *)
Definition type_page_data (name : string) (type_uses type_used : dict (gset string))
  : result (dict front_value) :=
  uses ← dict_item name type_uses;
  used ← dict_item name type_used;
  Ok (filter (fun kv => front_truthy kv.2 = true)
        [("title", FrontStr name);
         ("uses", FrontList (sorted_set uses));
         ("used", FrontList (sorted_set used))]).

(** [sorted(l, key=fst)]: a stable sort, equal keys keep their order. *)
Fixpoint insert_by_key {V : Type} (x : string * V) (l : list (string * V))
  : list (string * V) :=
  match l with
  | [] => [x]
  | y :: rest =>
      if decide (String.le x.1 y.1) then x :: y :: rest
      else y :: insert_by_key x rest
  end.

Definition sorted_by_key {V : Type} (l : list (string * V)) : list (string * V) :=
  foldr insert_by_key [] l.

(** The rows of the API list, for pages given by their title and their
    status, both strings. *)
Definition api_rows (pages : list (string * string)) : list (list string) :=
  (fun page => ["[" +:+ page.1 +:+ "](." +:+ page.1 +:+ ".md)"; page.2])
    <$> sorted_by_key pages.

Definition api_list_page (pages : list (string * string)) : result string :=
  table ← tabulate (api_rows pages) ["API"; "Release"];
  Ok ("# List of Autoware AD API" +:+ newline +:+ newline +:+ table +:+ newline).

(** The page that lists the types: one bullet for each key of the table,
    in sorted order. *)
Definition types_index (specs : dict (dict (dict string))) : string :=
  foldl (fun text spec =>
           text +:+ "- [" +:+ spec +:+ "](./" +:+ spec +:+ ".md)" +:+ newline)
        ("# Types of Autoware AD API" +:+ newline +:+ newline)
        (merge_sort String.le (dict_keys specs)).

(** ** More concrete inputs *)

Definition state_of (r : result state) : state :=
  match r with
  | Ok st => st
  | Raise _ => initial ∅
  end.

(** The state after the loop has popped and parsed the one seed name of
    the concrete corpus. *)
Definition demo_first : state :=
  state_of (parse_rosidl_file (H := demo_rosidl) (initial ∅)
              "autoware_adapi_v1_msgs/srv/SetRoute").

(** The dependency graph of the table of the concrete corpus. *)
Definition demo_graph : dict (gset string) * dict (gset string) :=
  match dependency_graph (specs demo_final) with
  | Ok g => g
  | Raise _ => ([], [])
  end.

(** Three files of the scanned tree: two API pages and a page without
    front matter. *)
Definition demo_files : list (string * list string) :=
  [("list/api/routing.md",
    ["---"; "title: /api/routing"; "status: released"; "---"; "text"]);
   ("list/index.md", ["# List of Autoware AD API"; ""; "text"]);
   ("list/api/localization.md",
    ["---"; "title: /api/localization"; "status: draft"; "---"; "---"; "text"])].

(** * Properties *)

(** ** The definitions on small inputs *)

Example str_split_qualified :
  str_split "/" "autoware_adapi_v1_msgs/msg/RouteOption"
  = ["autoware_adapi_v1_msgs"; "msg"; "RouteOption"].
Proof. reflexivity. Qed.

Example str_split_empty_parts : str_split "/" "a//" = ["a"; ""; ""].
Proof. reflexivity. Qed.

Example str_split_empty_string : str_split "/" "" = [""].
Proof. reflexivity. Qed.

Example normalize_two_parts :
  normalize_msg_name "geometry_msgs/Pose" = "geometry_msgs/msg/Pose".
Proof. reflexivity. Qed.

Example normalize_builtin : normalize_msg_name "uint8[16]" = "uint8[16]".
Proof. reflexivity. Qed.

Example strip_array_suffix_unbounded :
  strip_array_suffix "autoware_adapi_v1_msgs/msg/RouteSegment[]"
  = "autoware_adapi_v1_msgs/msg/RouteSegment".
Proof. reflexivity. Qed.

Example is_documentation_msg_adapi :
  is_documentation_msg "autoware_adapi_v1_msgs/msg/RouteOption" = true ∧
  is_documentation_msg "autoware_adapi_version_msgs/srv/InterfaceVersion" = true ∧
  is_documentation_msg "geometry_msgs/msg/Pose" = false ∧
  is_documentation_msg "bool" = false.
Proof. repeat split; reflexivity. Qed.

Example py_in_kinds :
  py_in "status" (YMap [(YStr "status", YStr "released")]) = Ok true ∧
  py_in "status" (YMap [(YStr "title", YStr "status")]) = Ok false ∧
  py_in "status" (YSeq [YStr "status"]) = Ok true ∧
  py_in "status" (YStr "no status here") = Ok true ∧
  py_in "status" YNull = Raise TypeError.
Proof. repeat split; reflexivity. Qed.

Example index_from_second_marker :
  index_from "---" 1 ["---"; "status: released"; "---"; "text"; "---"] = Ok 2 ∧
  index_from "---" 1 ["---"; "status: released"] = Raise ValueError.
Proof. split; reflexivity. Qed.

Example clean_up_keeps_index :
  clean_up_loop ["autoware_adapi_v1_msgs"; "index.md"]
    (<["index.md" := RegularFile "# Types"]>
       (<["autoware_adapi_v1_msgs" := Directory ∅]> ∅))
  = (<["index.md" := RegularFile "# Types"]> ∅, Ok ()).
Proof. vm_compute. reflexivity. Qed.

Example clean_up_refuses_link :
  (clean_up_loop ["latest"] (<["latest" := Symlink true []]> ∅)).2 = Raise OSError.
Proof. vm_compute. reflexivity. Qed.

(** A link to a directory of the root is refused when it is listed before
    the directory and skipped when it is listed after it, since by then it
    leads nowhere. *)
Example clean_up_listing_order :
  let root : gmap string entry :=
    <["v1" := Directory ∅]> (<["latest" := Symlink true ["v1"]]> ∅) in
  iterdir root ["latest"; "v1"] ∧ iterdir root ["v1"; "latest"] ∧
  clean_up_loop ["latest"; "v1"] root = (root, Raise OSError) ∧
  clean_up_loop ["v1"; "latest"] root
    = (<["latest" := Symlink true ["v1"]]> ∅, Ok ()).
Proof.
  simpl. split; [|split; [|split]].
  - unfold iterdir. vm_compute map_to_list. simpl.
    first [reflexivity | apply perm_swap].
  - unfold iterdir. vm_compute map_to_list. simpl.
    first [reflexivity | apply perm_swap].
  - vm_compute. reflexivity.
  - vm_compute. reflexivity.
Qed.

(** A name that does not have three parts cannot be unpacked, and
    [pathlib] refuses the suffix that an empty kind gives. *)
Example resolve_msg_file_path_refused :
  resolve_msg_file_path (H := demo_rosidl) "autoware_adapi_v1_msgs/msg/RouteOption"
    = Ok "/share/autoware_adapi_v1_msgs/msg/RouteOption.msg" ∧
  resolve_msg_file_path (H := demo_rosidl) "autoware_adapi_v1_msgs/RouteOption"
    = Raise ValueError ∧
  resolve_msg_file_path (H := demo_rosidl) "autoware_adapi_v1_msgs//RouteOption"
    = Raise ValueError.
Proof. repeat split; reflexivity. Qed.

(** ** Strings *)

Lemma str_split_nonempty sep s : str_split sep s ≠ [].
Proof.
  destruct s as [|c s]; simpl; [done|].
  destruct (Ascii.eqb c sep); [done|].
  by destruct (str_split sep s).
Qed.

Lemma str_split_no_sep sep s : has_char sep s = false → str_split sep s = [s].
Proof.
  induction s as [|c s IH]; simpl; [done|].
  intros [Hc Hs]%orb_false_iff. rewrite Hc, (IH Hs). done.
Qed.

Lemma str_split_app_sep sep a b :
  has_char sep a = false →
  str_split sep (a +:+ String sep b) = a :: str_split sep b.
Proof.
  induction a as [|c a IH]; simpl.
  - intros _. by rewrite Ascii.eqb_refl.
  - intros [Hc Ha]%orb_false_iff. rewrite Hc, (IH Ha). done.
Qed.

Lemma str_split_parts sep s p : p ∈ str_split sep s → has_char sep p = false.
Proof.
  revert p. induction s as [|c s IH]; simpl; intros p.
  - by intros ->%list_elem_of_singleton.
  - destruct (Ascii.eqb c sep) eqn:Hc.
    + intros [->| Hp]%elem_of_cons; [done | by apply IH].
    + destruct (str_split sep s) as [|q qs]; simpl.
      * intros ->%list_elem_of_singleton. simpl. by rewrite Hc.
      * intros [->| Hp]%elem_of_cons.
        -- simpl. rewrite Hc. simpl. apply IH. left.
        -- apply IH. by right.
Qed.

Lemma str_split_single sep s p :
  str_split sep s = [p] → p = s ∧ has_char sep s = false.
Proof.
  revert p. induction s as [|c s IH]; simpl; intros p.
  - by intros [= <-].
  - destruct (Ascii.eqb c sep) eqn:Hc.
    + intros [= <- Hnil]. by destruct (str_split_nonempty sep s).
    + destruct (str_split sep s) as [|q qs] eqn:Hs.
      * by destruct (str_split_nonempty sep s).
      * intros [= <- ->]. destruct (IH q eq_refl) as [-> Hno].
        by rewrite Hno.
Qed.

Lemma str_split_join3 sep a b c :
  has_char sep a = false → has_char sep b = false → has_char sep c = false →
  str_split sep (a +:+ String sep b +:+ String sep c) = [a; b; c].
Proof.
  intros Ha Hb Hc.
  change (a +:+ String sep b +:+ String sep c)
    with (a +:+ String sep (b +:+ String sep c)).
  rewrite (str_split_app_sep sep a _ Ha).
  rewrite (str_split_app_sep sep b _ Hb).
  by rewrite (str_split_no_sep sep c Hc).
Qed.

(** ** Type names *)

Lemma normalize_bare x : has_char "/" x = false → normalize_msg_name x = x.
Proof.
  intros Hx. unfold normalize_msg_name. by rewrite (str_split_no_sep _ _ Hx).
Qed.

Lemma normalize_parts x p0 p1 rest :
  str_split "/" x = p0 :: p1 :: rest →
  normalize_msg_name x = p0 +:+ "/msg/" +:+ p1 ∧
  str_split "/" (normalize_msg_name x) = [p0; "msg"; p1].
Proof.
  intros Hx. unfold normalize_msg_name at 1 2. rewrite Hx. split; [done|].
  assert (has_char "/" p0 = false) as H0
    by (apply (str_split_parts "/" x); rewrite Hx; set_solver).
  assert (has_char "/" p1 = false) as H1
    by (apply (str_split_parts "/" x); rewrite Hx; set_solver).
  by apply (str_split_join3 "/" p0 "msg" p1).
Qed.

(** C6 (as amended): normalization leaves a name without [/] unchanged and
    rewrites a name with parts [p0/p1/...] to [p0/msg/p1]; normalizing
    twice gives the same as normalizing once exactly when the name has no
    [/] or its second part is [msg]. *)
Theorem normalize_msg_name_twice (x : string) :
  (has_char "/" x = false → normalize_msg_name x = x) ∧
  (∀ p0 p1 rest, str_split "/" x = p0 :: p1 :: rest →
     normalize_msg_name x = p0 +:+ "/msg/" +:+ p1) ∧
  (normalize_msg_name (normalize_msg_name x) = normalize_msg_name x ↔
     has_char "/" x = false ∨ str_split "/" x !! 1 = Some "msg").
Proof.
  split; [apply normalize_bare|]. split.
  { intros p0 p1 rest Hx. by destruct (normalize_parts x p0 p1 rest Hx). }
  destruct (str_split "/" x) as [|p0 [|p1 rest]] eqn:Hx.
  - by destruct (str_split_nonempty "/" x).
  - destruct (str_split_single _ _ _ Hx) as [-> Hno].
    rewrite !(normalize_bare x Hno). by split; [left|].
  - destruct (normalize_parts x p0 p1 rest Hx) as [Hn Hs].
    assert (has_char "/" x = true) as Hyes.
    { destruct (has_char "/" x) eqn:Hc; [done|].
      rewrite (str_split_no_sep _ _ Hc) in Hx. done. }
    unfold normalize_msg_name at 1. rewrite Hs, Hn. simpl. split.
    + intros Heq. right. f_equal.
      apply (inj (String.app p0)) in Heq. simpl in Heq.
      injection Heq as Heq. simpl in Heq. done.
    + intros [Hno | [= ->]]; [congruence | done].
Qed.

(** C6 (as stated) fails: a qualified name is not returned unchanged, and
    normalizing the result of a normalization changes it again. *)
Lemma normalize_msg_name_not_idempotent :
  normalize_msg_name "autoware_adapi_v1_msgs/msg/Foo"
    ≠ "autoware_adapi_v1_msgs/msg/Foo" ∧
  normalize_msg_name (normalize_msg_name "autoware_adapi_v1_msgs/Foo")
    ≠ normalize_msg_name "autoware_adapi_v1_msgs/Foo".
Proof. split; vm_compute; discriminate. Qed.

(** ** The metadata loader *)

Lemma yaml_items_get_in key items :
  existsb (is_str key) items.*1 = bool_decide (is_Some (yaml_items_get key items)).
Proof.
  induction items as [|[k v] items IH]; simpl; [done|].
  by destruct (is_str key k).
Qed.

Lemma test_markdown_metadata_mapping items path :
  test_markdown_metadata (YMap items) path =
    match yaml_get "status" (YMap items) with
    | Some _ => Ok (YMap items)
    | None => Raise (KeyError ("status in " +:+ path))
    end.
Proof.
  unfold test_markdown_metadata. simpl. rewrite yaml_items_get_in.
  by destruct (yaml_items_get "status" items) as [v|].
Qed.

Lemma load_markdown_metadata_block `{YamlLoader} lines path stop :
  2 < length lines → head lines = Some "---" →
  index_from "---" 1 lines = Ok stop →
  load_markdown_metadata lines path =
    (data ← safe_load (str_join newline (slice 1 stop lines));
     page ← test_markdown_metadata data path;
     Ok (Some page)).
Proof.
  intros Hlen Hhead Hstop. unfold load_markdown_metadata.
  rewrite !bool_decide_eq_true_2 by done. simpl. by rewrite Hstop.
Qed.

(** The status check on a mapping: when the front-matter block of a
    qualifying file parses to a key-value mapping, loading returns that
    mapping, which holds the status, if the mapping has a [status] key,
    and otherwise raises the key error whose message ends with the path
    of the file. *)
Theorem load_markdown_metadata_status `{YamlLoader} lines path stop items :
  2 < length lines → head lines = Some "---" →
  index_from "---" 1 lines = Ok stop →
  safe_load (str_join newline (slice 1 stop lines)) = Ok (YMap items) →
  match yaml_get "status" (YMap items) with
  | Some status =>
      load_markdown_metadata lines path = Ok (Some (YMap items))
  | None =>
      load_markdown_metadata lines path = Raise (KeyError ("status in " +:+ path))
  end.
Proof.
  intros Hlen Hhead Hstop Hload.
  rewrite (load_markdown_metadata_block lines path stop) by done.
  rewrite Hload. unfold mbind, result_bind.
  rewrite test_markdown_metadata_mapping.
  by destruct (yaml_get "status" (YMap items)).
Qed.

(** The status check on a file with a title and a status. *)
Lemma load_markdown_metadata_status_witness :
  load_markdown_metadata (H := flat_loader)
    ["---"; "title: /api/routing"; "status: released"; "---"; "text"]
    "list/api/routing.md"
  = Ok (Some (YMap [(YStr "title", YStr "/api/routing");
                    (YStr "status", YStr "released")])).
Proof.
  apply (load_markdown_metadata_status (H := flat_loader)
           ["---"; "title: /api/routing"; "status: released"; "---"; "text"]
           "list/api/routing.md" 3
           [(YStr "title", YStr "/api/routing"); (YStr "status", YStr "released")]).
  - simpl. lia.
  - reflexivity.
  - reflexivity.
  - reflexivity.
Defined.

(** C4: a block that lacks the [status] key is to raise the key error that
    names the file, as the check does on a mapping.  On an empty block it
    does not: the block parses to null, which has no [status] key, and
    the membership test of the check itself raises a type error that
    names no file. *)
Lemma load_markdown_metadata_empty_block :
  yaml_get "status" YNull = None ∧
  test_markdown_metadata YNull "list/api/routing.md" = Raise TypeError ∧
  load_markdown_metadata (H := flat_loader) ["---"; "---"; "text"]
    "list/api/routing.md" = Raise TypeError.
Proof. repeat split; reflexivity. Qed.

(** C5 (as amended): loading returns no record and raises nothing exactly
    when the file has at most two lines or its first line is not the
    marker. *)
Theorem load_markdown_metadata_skips `{YamlLoader} lines path :
  load_markdown_metadata lines path = Ok None ↔
  (length lines ≤ 2)%nat ∨ head lines ≠ Some "---".
Proof.
  unfold load_markdown_metadata. split.
  - destruct (bool_decide_reflect (2 < length lines)) as [Hlen|Hlen];
      [|intros _; left; lia].
    destruct (bool_decide_reflect (head lines = Some "---")) as [Hhd|Hhd];
      [|intros _; by right].
    simpl. destruct (index_from "---" 1 lines); simpl; [|done].
    destruct (safe_load _); simpl; [|done].
    by destruct (test_markdown_metadata _ _).
  - intros [Hlen|Hhd].
    + rewrite (bool_decide_eq_false_2 (2 < length lines)) by lia. done.
    + rewrite (bool_decide_eq_false_2 (head lines = Some "---")) by done.
      by rewrite andb_false_r.
Qed.

(** C5 (as stated) fails: a file of three lines that opens with the marker
    and never repeats it has no complete block, and loading it raises. *)
Lemma load_markdown_metadata_unclosed_block :
  has_delimiter_block ["---"; "title: /api/routing"; "status: released"] = false ∧
  load_markdown_metadata (H := flat_loader)
    ["---"; "title: /api/routing"; "status: released"] "list/api/routing.md"
  = Raise ValueError.
Proof. split; reflexivity. Qed.

(** C9 (as amended): a record produced by loading is the parsed
    front-matter block itself, so its title is the block's own [title]
    entry, and loading the same lines under any other path gives the same
    record. *)
Theorem load_markdown_metadata_title `{YamlLoader} lines path page :
  load_markdown_metadata lines path = Ok (Some page) →
  (∃ stop, index_from "---" 1 lines = Ok stop ∧
     safe_load (str_join newline (slice 1 stop lines)) = Ok page) ∧
  (∀ path', load_markdown_metadata lines path' = Ok (Some page)).
Proof.
  unfold load_markdown_metadata.
  destruct (bool_decide (2 < length lines) && bool_decide (head lines = Some "---"));
    [|done].
  simpl. destruct (index_from "---" 1 lines) as [stop|]; simpl; [|done].
  destruct (safe_load _) as [data|] eqn:Hdata; simpl; [|done].
  unfold test_markdown_metadata.
  destruct (py_in "status" data) as [found|]; simpl; [|done].
  destruct found; simpl; [|done].
  intros [= <-]. split; [by exists stop | done].
Qed.

(** C9 on the same file: the record is the parsed block under every path. *)
Lemma load_markdown_metadata_title_witness :
  (∃ stop,
     index_from "---" 1
       ["---"; "title: /api/routing"; "status: released"; "---"; "text"] = Ok stop ∧
     safe_load (YamlLoader := flat_loader)
       (str_join newline
          (slice 1 stop
             ["---"; "title: /api/routing"; "status: released"; "---"; "text"]))
     = Ok (YMap [(YStr "title", YStr "/api/routing");
                 (YStr "status", YStr "released")])) ∧
  (∀ path',
     load_markdown_metadata (H := flat_loader)
       ["---"; "title: /api/routing"; "status: released"; "---"; "text"] path'
     = Ok (Some (YMap [(YStr "title", YStr "/api/routing");
                       (YStr "status", YStr "released")]))).
Proof.
  apply (load_markdown_metadata_title (H := flat_loader) _ "list/api/routing.md").
  reflexivity.
Defined.

(** C9 (as stated) fails: two files loaded under one path carry the titles
    their front matter gives them, and a block without a [title] entry
    yields a record without a title. *)
Lemma load_markdown_metadata_title_from_block :
  ∃ page1 page2 page3,
    load_markdown_metadata (H := flat_loader)
      ["---"; "title: /api/routing"; "status: released"; "---"; "text"]
      "list/api/page.md" = Ok (Some page1) ∧
    load_markdown_metadata (H := flat_loader)
      ["---"; "title: /api/localization"; "status: released"; "---"; "text"]
      "list/api/page.md" = Ok (Some page2) ∧
    load_markdown_metadata (H := flat_loader)
      ["---"; "status: released"; "---"; "text"]
      "list/api/page.md" = Ok (Some page3) ∧
    yaml_get "title" page1 = Some (YStr "/api/routing") ∧
    yaml_get "title" page2 = Some (YStr "/api/localization") ∧
    yaml_get "title" page3 = None.
Proof. do 3 eexists. repeat split; reflexivity. Qed.

(** ** Clean-up of the type pages *)

Lemma iterdir_elem root listing name :
  iterdir root listing → name ∈ listing ↔ is_Some (root !! name).
Proof.
  unfold iterdir. intros ->. rewrite list_elem_of_fmap. split.
  - intros ([n e] & -> & Hin%elem_of_map_to_list). by exists e.
  - intros [e He]. exists (name, e). split; [done|]. by apply elem_of_map_to_list.
Qed.

Lemma clean_up_loop_frame listing (root : gmap string entry) :
  (clean_up_loop listing root).1 ⊆ root ∧
  (∀ name e, root !! name = Some e → (clean_up_loop listing root).1 !! name = None →
     ∃ children, e = Directory children).
Proof.
  revert root. induction listing as [|name listing IH]; intros root.
  { split; [done|]. simpl. congruence. }
  simpl. destruct (is_dir root name) eqn:Hdir; [|apply IH].
  unfold rmtree.
  destruct (root !! name) as [[content|children|to_dir through]|] eqn:Hname;
    simpl; try (split; [done | congruence]).
  destruct (IH (delete name root)) as [Hsub Hrem]. split.
  - etrans; [done | apply delete_subseteq].
  - intros name' e' Hroot Hnone.
    destruct (decide (name' = name)) as [->|Hne].
    + rewrite Hname in Hroot. injection Hroot as <-. by exists children.
    + apply (Hrem name' e'); [by rewrite lookup_delete_ne | done].
Qed.

Lemma clean_up_loop_removes listing (root : gmap string entry) name children :
  (clean_up_loop listing root).2 = Ok () →
  name ∈ listing → root !! name = Some (Directory children) →
  (clean_up_loop listing root).1 !! name = None.
Proof.
  revert root. induction listing as [|name' listing IH]; intros root Hok Hin Hroot.
  - by apply elem_of_nil in Hin.
  - simpl in *. destruct (decide (name' = name)) as [->|Hne].
    + unfold is_dir, rmtree in *. rewrite Hroot in *.
      destruct (clean_up_loop_frame listing (delete name root)) as [Hsub _].
      eapply lookup_weaken_None; [apply lookup_delete_eq | done].
    + apply elem_of_cons in Hin as [->|Hin]; [done|].
      destruct (is_dir root name') eqn:Hdir; [|by apply IH].
      unfold rmtree in *.
      destruct (root !! name') as [[content|children'|to_dir through]|];
        simpl in *; try done.
      apply IH; [done | done |]. by rewrite lookup_delete_ne.
Qed.

(** C10: in whatever order the names of the root are listed, the clean-up
    leaves every regular file directly under the root as it was; an entry
    it takes away is a directory, nothing is added or changed, and when it
    ends without an error every directory is gone. *)
Theorem clean_up_frame (root : gmap string entry) (listing : list string) :
  iterdir root listing →
  (∀ name content, root !! name = Some (RegularFile content) →
     (clean_up_loop listing root).1 !! name = Some (RegularFile content)) ∧
  (∀ name e, root !! name = Some e →
     (clean_up_loop listing root).1 !! name ≠ Some e →
     (clean_up_loop listing root).1 !! name = None ∧
     ∃ children, e = Directory children) ∧
  (∀ name e, (clean_up_loop listing root).1 !! name = Some e →
     root !! name = Some e) ∧
  ((clean_up_loop listing root).2 = Ok () →
   ∀ name children, root !! name = Some (Directory children) →
     (clean_up_loop listing root).1 !! name = None).
Proof.
  intros Hlisting.
  destruct (clean_up_loop_frame listing root) as [Hsub Hrem].
  assert (∀ name e, root !! name = Some e →
            (clean_up_loop listing root).1 !! name = Some e ∨
            (clean_up_loop listing root).1 !! name = None ∧
            ∃ children, e = Directory children)
    as Hcases.
  { intros name e Hroot.
    destruct ((clean_up_loop listing root).1 !! name) as [e'|] eqn:Hafter.
    - left. f_equal. pose proof (lookup_weaken _ _ _ _ Hafter Hsub). congruence.
    - right. split; [done|]. by eapply Hrem. }
  split; [|split; [|split]].
  - intros name content Hroot.
    destruct (Hcases _ _ Hroot) as [? | [_ [children ?]]]; done.
  - intros name e Hroot Hchanged.
    destruct (Hcases _ _ Hroot) as [? | ?]; done.
  - intros name e Hafter. by eapply lookup_weaken.
  - intros Hok name children Hroot.
    apply (clean_up_loop_removes _ _ _ children); [done| |done].
    apply (iterdir_elem root); [done | by eexists].
Qed.

Lemma demo_iterdir : iterdir demo_root demo_listing.
Proof.
  unfold iterdir.
  apply (bool_decide_unpack (demo_listing ≡ₚ (map_to_list demo_root).*1)).
  vm_compute. exact I.
Qed.

(** C10 on a root with the index, a directory and a link to it: the index
    stays and the directory goes. *)
Lemma clean_up_frame_witness :
  (clean_up_loop demo_listing demo_root).1 !! "index.md"
    = Some (RegularFile "# Types") ∧
  (clean_up_loop demo_listing demo_root).1 !! "autoware_adapi_v1_msgs" = None.
Proof.
  destruct (clean_up_frame demo_root demo_listing demo_iterdir)
    as (Hfiles & _ & _ & Hdirs).
  split.
  - apply Hfiles. reflexivity.
  - apply (Hdirs eq_refl _ (<["msg" := Directory ∅]> ∅)). reflexivity.
Defined.

(** ** The table formatter *)

Lemma py_len_app (s t : string) :
  py_len (s +:+ t) = py_len s + py_len t.
Proof.
  induction s as [|c s IH]; [done|].
  change (String c s +:+ t) with (String c (s +:+ t)). simpl. rewrite IH. lia.
Qed.

Lemma string_app_empty_r (s : string) : s +:+ "" = s.
Proof.
  induction s as [|c s IH]; [done|].
  change (String c s +:+ "") with (String c (s +:+ "")). by rewrite IH.
Qed.

Lemma string_app_assoc (s t u : string) : (s +:+ t) +:+ u = s +:+ t +:+ u.
Proof.
  induction s as [|c s IH]; [done|].
  change ((String c s +:+ t) +:+ u) with (String c ((s +:+ t) +:+ u)).
  by rewrite IH.
Qed.

Lemma repeat_char_length c n :
  is_continuation c = false → py_len (repeat_char c n) = n.
Proof. intros Hc. induction n as [|n IH]; simpl; [done | by rewrite Hc, IH]. Qed.

Lemma pad_length width s :
  py_len (pad width s) = Nat.max width (py_len s).
Proof. unfold pad. rewrite py_len_app, repeat_char_length by done. lia. Qed.

Lemma widen_length widths line :
  length (widen widths line) = Nat.min (length line) (length widths).
Proof. unfold widen. by rewrite length_zip_with, length_fmap. Qed.

Lemma widen_lookup widths line j w :
  widen widths line !! j = Some w ↔
  ∃ cell w0, line !! j = Some cell ∧ widths !! j = Some w0 ∧
             w = Nat.max (py_len cell) w0.
Proof.
  unfold widen. rewrite lookup_zip_with_Some. split.
  - intros (n & w0 & -> & (cell & -> & Hcell)%list_lookup_fmap_Some & Hw0).
    by exists cell, w0.
  - intros (cell & w0 & Hcell & Hw0 & ->).
    exists (py_len cell), w0. split; [done|]. split; [|done].
    apply list_lookup_fmap_Some. by exists cell.
Qed.

Lemma foldl_widen_length data widths :
  (length (foldl widen widths data) ≤ length widths ∧
   ∀ line, line ∈ data → length (foldl widen widths data) ≤ length line) ∧
  (length (foldl widen widths data) = length widths ∨
   ∃ line, line ∈ data ∧ length (foldl widen widths data) = length line).
Proof.
  revert widths. induction data as [|line data IH]; intros widths; simpl.
  - split; [split; [done | by intros ? ?%elem_of_nil] | by left].
  - destruct (IH (widen widths line)) as [[Hle Hall] Hex].
    rewrite widen_length in Hle, Hex. split; [split|].
    + lia.
    + intros line' [->|Hin]%elem_of_cons; [lia | by apply Hall].
    + destruct Hex as [Heq | (line' & Hin & Heq)].
      * destruct (decide (length line ≤ length widths)).
        -- right. exists line. split; [left | lia].
        -- left. lia.
      * right. exists line'. split; [by right | done].
Qed.

Lemma foldl_widen_lookup data widths j w :
  foldl widen widths data !! j = Some w →
  ∃ w0, widths !! j = Some w0 ∧ w0 ≤ w ∧
    (∀ line, line ∈ data →
       ∃ cell, line !! j = Some cell ∧ py_len cell ≤ w) ∧
    (w = w0 ∨
     ∃ line cell, line ∈ data ∧ line !! j = Some cell ∧ py_len cell = w).
Proof.
  revert widths. induction data as [|line data IH]; intros widths; simpl.
  - intros Hw. exists w. split; [done|]. split; [done|].
    split; [by intros ? ?%elem_of_nil | by left].
  - intros Hw. destruct (IH _ Hw) as (w1 & Hw1 & Hle & Hall & Hex).
    apply widen_lookup in Hw1 as (cell & w0 & Hcell & Hw0 & ->).
    exists w0. split; [done|]. split; [lia|]. split.
    + intros line' [->|Hin]%elem_of_cons; [|by apply Hall].
      exists cell. split; [done | lia].
    + destruct Hex as [-> | (line' & cell' & Hin & Hcell' & Hlen)].
      * destruct (decide (py_len cell ≤ w0)).
        -- left. lia.
        -- right. exists line, cell. split; [left|]. split; [done | lia].
      * right. exists line', cell'. split; [by right | done].
Qed.

Lemma str_format_fields widths line tail :
  length widths ≤ length line →
  str_format (join_pieces (Lit " | ") (Fld <$> widths) ++ [Lit tail]) line
  = Ok (str_join " | " (zip_with pad widths line) +:+ tail).
Proof.
  revert line. induction widths as [|w widths IH]; intros line Hlen.
  - destruct line; simpl; by rewrite string_app_empty_r.
  - destruct line as [|cell line]; simpl in Hlen; [lia|].
    destruct widths as [|w' widths].
    + destruct line; simpl; by rewrite string_app_empty_r.
    + destruct line as [|cell' line]; simpl in Hlen; [lia|].
      change (join_pieces (Lit " | ") (Fld <$> w :: w' :: widths) ++ [Lit tail])
        with (Fld w :: Lit " | " ::
                (join_pieces (Lit " | ") (Fld <$> w' :: widths) ++ [Lit tail])).
      change (str_format (Fld w :: Lit " | " :: ?t) (cell :: ?args))
        with (rest ← (rest ← str_format t args; Ok (" | " +:+ rest));
              Ok (pad w cell +:+ rest)).
      rewrite (IH (cell' :: line)) by (simpl; lia).
      unfold mbind, result_bind. f_equal.
      change (zip_with pad (w :: w' :: widths) (cell :: cell' :: line))
        with (pad w cell :: pad w' cell' :: zip_with pad widths line).
      change (zip_with pad (w' :: widths) (cell' :: line))
        with (pad w' cell' :: zip_with pad widths line).
      change (str_join " | " (pad w cell :: ?l))
        with (pad w cell +:+ " | " +:+ str_join " | " l).
      by rewrite !string_app_assoc.
Qed.

Lemma str_format_row widths line :
  length widths ≤ length line →
  str_format (Lit "| " :: join_pieces (Lit " | ") (Fld <$> widths) ++ [Lit " |"]) line
  = Ok (row_text widths line).
Proof.
  intros Hlen.
  change (str_format (Lit "| " :: ?t) line)
    with (rest ← str_format t line; Ok ("| " +:+ rest)).
  by rewrite str_format_fields.
Qed.

Lemma mapM_ok {A B : Type} (f : A → result B) (g : A → B) (l : list A) :
  (∀ a, a ∈ l → f a = Ok (g a)) → mapM f l = Ok (g <$> l).
Proof.
  induction l as [|a l IH]; intros Hall; simpl; [done|].
  rewrite (Hall a) by left. simpl. rewrite IH; [done|].
  intros a' Hin. apply Hall. by right.
Qed.

Lemma column_widths_columns data header :
  (∀ line, line ∈ header :: data → length (column_widths data header) ≤ length line) ∧
  (∃ line, line ∈ header :: data ∧ length (column_widths data header) = length line).
Proof.
  unfold column_widths.
  destruct (foldl_widen_length data (py_len <$> header)) as [[Hle Hall] Hex].
  rewrite length_fmap in Hle, Hex. split.
  - intros line [->|Hin]%elem_of_cons; [done | by apply Hall].
  - destruct Hex as [Heq | (line & Hin & Heq)].
    + exists header. split; [left | done].
    + exists line. split; [by right | done].
Qed.

Lemma column_widths_max data header j w :
  column_widths data header !! j = Some w →
  (∀ line, line ∈ header :: data →
     ∃ cell, line !! j = Some cell ∧ py_len cell ≤ w) ∧
  (∃ line cell, line ∈ header :: data ∧ line !! j = Some cell ∧
                py_len cell = w).
Proof.
  intros Hw. apply foldl_widen_lookup in Hw as (w0 & Hw0 & Hle & Hall & Hex).
  apply list_lookup_fmap_Some in Hw0 as (cell0 & -> & Hcell0). split.
  - intros line [->|Hin]%elem_of_cons; [by exists cell0 | by apply Hall].
  - destruct Hex as [-> | (line & cell & Hin & Hcell & Hlen)].
    + exists header, cell0. split; [left | done].
    + exists line, cell. split; [by right | done].
Qed.

(** A row shorter than the header cuts the table down to the columns
    every row has. *)
Example tabulate_ragged :
  tabulate [["x"]; ["y"; "zzzzzzzzz"; "k"]] ["API"; "Release"]
  = Ok ("| API |" +:+ newline +:+ "| --- |" +:+ newline +:+
        "| x   |" +:+ newline +:+ "| y   |").
Proof. reflexivity. Qed.

(** Cells are measured in characters, as [len] and the format field
    measure them, not in bytes. *)
Example tabulate_accents :
  py_len "éééé" = 4 ∧ String.length "éééé" = 8 ∧
  column_widths [["éééé"; "ab"]] ["API"; "Release"] = [4; 7] ∧
  tabulate [["éééé"; "ab"]] ["API"; "Release"]
  = Ok ("| API  | Release |" +:+ newline +:+
        "| ---- | ------- |" +:+ newline +:+
        "| éééé | ab      |").
Proof. repeat split; reflexivity. Qed.

(** C7: the widths are, column by column, the largest cell length, counted
    in characters, among the header and the data rows, over the columns
    that the header and every row have; the separator row is made of as
    many dashes as each width; the text is the rows, header and separator
    first, each cell padded with spaces to exactly its column's width.
    For the header [API, Release] and the row [[a](.a.md), released] the
    widths are the two maxima. *)
Theorem tabulate_layout :
  (∀ (data : list (list string)) (header : list string),
     let widths := column_widths data header in
     let border := repeat_char "-" <$> widths in
     (∀ line, line ∈ header :: data → length widths ≤ length line) ∧
     (∃ line, line ∈ header :: data ∧ length widths = length line) ∧
     (∀ j w, widths !! j = Some w →
        (∀ line, line ∈ header :: data →
           ∃ cell, line !! j = Some cell ∧ py_len cell ≤ w) ∧
        (∃ line cell, line ∈ header :: data ∧ line !! j = Some cell ∧
                      py_len cell = w)) ∧
     (∀ j w, widths !! j = Some w →
        border !! j = Some (repeat_char "-" w) ∧
        py_len (repeat_char "-" w) = w) ∧
     tabulate data header
       = Ok (str_join newline (row_text widths <$> header :: border :: data)) ∧
     (∀ line j w cell,
        line ∈ header :: border :: data →
        widths !! j = Some w → line !! j = Some cell →
        zip_with pad widths line !! j = Some (pad w cell) ∧
        pad w cell = cell +:+ repeat_char " " (w - py_len cell) ∧
        py_len (pad w cell) = w)) ∧
  column_widths [["[a](.a.md)"; "released"]] ["API"; "Release"]
    = [Nat.max (py_len "API") (py_len "[a](.a.md)");
       Nat.max (py_len "Release") (py_len "released")] ∧
  tabulate [["[a](.a.md)"; "released"]] ["API"; "Release"]
    = Ok ("| API        | Release  |" +:+ newline +:+
          "| ---------- | -------- |" +:+ newline +:+
          "| [a](.a.md) | released |").
Proof.
  split; [|split; reflexivity].
  intros data header widths border.
  destruct (column_widths_columns data header) as [Hcols Hcol].
  assert (∀ j w, widths !! j = Some w → border !! j = Some (repeat_char "-" w))
    as Hborder.
  { intros j w Hw. unfold border. by rewrite list_lookup_fmap, Hw. }
  split; [done|]. split; [done|]. split; [apply column_widths_max|].
  split; [|split].
  - intros j w Hw. split; [by apply Hborder | by apply repeat_char_length].
  - unfold tabulate. fold widths. fold border.
    rewrite (mapM_ok _ (row_text widths)); [done|].
    intros line Hin. apply str_format_row.
    apply elem_of_cons in Hin as [->|Hin]; [apply Hcols; left|].
    apply elem_of_cons in Hin as [->|Hin]; [|apply Hcols; by right].
    unfold border. by rewrite length_fmap.
  - intros line j w cell Hin Hw Hcell. split; [|split; [done|]].
    { apply lookup_zip_with_Some. by exists w, cell. }
    rewrite pad_length.
    assert (py_len cell ≤ w); [|lia].
    apply elem_of_cons in Hin as [->|Hin].
    { destruct (column_widths_max data header j w Hw) as [Hall _].
      destruct (Hall header) as (cell' & Hcell' & Hle); [left|]. congruence. }
    apply elem_of_cons in Hin as [->|Hin].
    { rewrite (Hborder j w Hw) in Hcell. injection Hcell as <-.
      by rewrite repeat_char_length by done. }
    destruct (column_widths_max data header j w Hw) as [Hall _].
    destruct (Hall line) as (cell' & Hcell' & Hle); [by right|]. congruence.
Qed.

(** ** Dictionaries *)

Section dict.
Context {V : Type}.
Implicit Types (d : dict V) (k : string) (v : V).

Lemma dict_get_set_eq k v d : dict_get k (dict_set k v d) = Some v.
Proof.
  induction d as [|[k' v'] d IH]; simpl.
  - by rewrite decide_True.
  - destruct (decide (k' = k)) as [->|Hne]; simpl.
    + by rewrite decide_True.
    + by rewrite decide_False.
Qed.

Lemma dict_get_set_ne k k' v d :
  k ≠ k' → dict_get k' (dict_set k v d) = dict_get k' d.
Proof.
  intros Hne. induction d as [|[k0 v0] d IH]; simpl.
  - by rewrite decide_False.
  - destruct (decide (k0 = k)) as [->|Hne0]; simpl.
    + by rewrite !decide_False.
    + by rewrite IH.
Qed.

Lemma dict_set_set k v v' d : dict_set k v' (dict_set k v d) = dict_set k v' d.
Proof.
  induction d as [|[k0 v0] d IH]; simpl.
  - by rewrite decide_True.
  - destruct (decide (k0 = k)) as [->|Hne]; simpl.
    + by rewrite decide_True.
    + by rewrite decide_False, IH.
Qed.

Lemma dict_keys_set k v d k' :
  k' ∈ dict_keys (dict_set k v d) ↔ k' = k ∨ k' ∈ dict_keys d.
Proof.
  unfold dict_keys. induction d as [|[k0 v0] d IH]; simpl.
  - rewrite list_elem_of_singleton, elem_of_nil. tauto.
  - destruct (decide (k0 = k)) as [->|Hne]; simpl.
    + rewrite !elem_of_cons. tauto.
    + rewrite !elem_of_cons, IH. tauto.
Qed.

Lemma dict_keys_set_present k v d :
  k ∈ dict_keys d → dict_keys (dict_set k v d) = dict_keys d.
Proof.
  unfold dict_keys. induction d as [|[k0 v0] d IH]; simpl.
  - by intros ?%elem_of_nil.
  - destruct (decide (k0 = k)) as [->|Hne]; simpl; [done|].
    intros [?|Hin]%elem_of_cons; [done|]. f_equal. by apply IH.
Qed.

Lemma dict_keys_set_NoDup k v d :
  NoDup (dict_keys d) → NoDup (dict_keys (dict_set k v d)).
Proof.
  unfold dict_keys. induction d as [|[k0 v0] d IH]; simpl.
  - intros _. apply NoDup_singleton.
  - rewrite NoDup_cons. intros [Hnotin Hnodup].
    destruct (decide (k0 = k)) as [->|Hne]; simpl.
    + by apply NoDup_cons.
    + apply NoDup_cons. split; [|by apply IH].
      intros [?|?]%(dict_keys_set k v d k0); done.
Qed.

Lemma dict_get_Some_elem k v d : dict_get k d = Some v → (k, v) ∈ d.
Proof.
  induction d as [|[k0 v0] d IH]; simpl; [done|].
  destruct (decide (k0 = k)) as [->|Hne].
  - intros [= ->]. left.
  - intros Hget. right. by apply IH.
Qed.

Lemma dict_elem_keys k v d : (k, v) ∈ d → k ∈ dict_keys d.
Proof. intros Hin. apply list_elem_of_fmap. by exists (k, v). Qed.

Lemma dict_elem_get k v d :
  NoDup (dict_keys d) → (k, v) ∈ d → dict_get k d = Some v.
Proof.
  unfold dict_keys. induction d as [|[k0 v0] d IH]; simpl.
  - by intros _ ?%elem_of_nil.
  - rewrite NoDup_cons. intros [Hnotin Hnodup] [[= -> ->]|Hin]%elem_of_cons.
    + by rewrite decide_True.
    + rewrite decide_False; [by apply IH|].
      intros ->. by apply Hnotin, (dict_elem_keys _ v).
Qed.

Lemma dict_get_is_Some k d : is_Some (dict_get k d) ↔ k ∈ dict_keys d.
Proof.
  split.
  - intros [v Hget]. by apply (dict_elem_keys _ v), dict_get_Some_elem.
  - unfold dict_keys. induction d as [|[k0 v0] d IH]; simpl.
    + by intros ?%elem_of_nil.
    + destruct (decide (k0 = k)) as [->|Hne]; [by eexists|].
      intros [?|Hin]%elem_of_cons; [done | by apply IH].
Qed.

Lemma dict_eq_Permutation d1 d2 :
  NoDup (dict_keys d1) → NoDup (dict_keys d2) →
  (∀ k, dict_get k d1 = dict_get k d2) → d1 ≡ₚ d2.
Proof.
  intros Hnd1 Hnd2 Hget.
  apply NoDup_Permutation; [by eapply NoDup_fmap_1..|].
  intros [k v]. split; intros Hin.
  - apply dict_get_Some_elem. rewrite <- Hget. by apply dict_elem_get.
  - apply dict_get_Some_elem. rewrite Hget. by apply dict_elem_get.
Qed.
End dict.

(** ** The YAML export *)

Global Instance key_le_trans {V : Type} : Transitive (@key_le V).
Proof. intros p q r. unfold key_le. apply transitivity. Qed.

Global Instance key_le_total {V : Type} : Total (@key_le V).
Proof. intros p q. unfold key_le. apply total, _. Qed.

Lemma merge_sort_key_le_Permutation {V : Type} (d1 d2 : dict V) :
  NoDup (dict_keys d1) → d1 ≡ₚ d2 →
  merge_sort key_le d1 = merge_sort key_le d2.
Proof.
  intros Hnd Hperm.
  apply (StronglySorted_unique_strong key_le).
  - intros [k1 v1] [k2 v2] Hin1 Hin2 Hle1 Hle2.
    unfold key_le in Hle1, Hle2. simpl in *.
    assert (k1 = k2) as <- by (by apply (anti_symm String.le)).
    rewrite merge_sort_Permutation in Hin1.
    rewrite merge_sort_Permutation, <- Hperm in Hin2.
    f_equal. apply (dict_elem_get _ _ _ Hnd) in Hin1, Hin2. congruence.
  - apply StronglySorted_merge_sort; apply _.
  - apply StronglySorted_merge_sort; apply _.
  - by rewrite !merge_sort_Permutation.
Qed.

(** ** The resolver: one visit *)

Lemma store_eq name entry specs :
  store name entry specs = Ok (dict_set name (prune entry) specs).
Proof.
  unfold store, dict_item. rewrite dict_get_set_eq. simpl.
  by rewrite dict_set_set.
Qed.

Lemma pending_fold (visited : gset string) values depends :
  foldl (fun dep value =>
           let name := strip_array_suffix value in
           if decide (name ∈ visited) then dep else {[name]} ∪ dep)
        depends values
  = depends ∪ (list_to_set (strip_array_suffix <$> values) ∖ visited).
Proof.
  revert depends. induction values as [|value values IH]; intros depends; simpl.
  - apply set_eq. intros n.
    rewrite elem_of_union, elem_of_difference, elem_of_empty. tauto.
  - rewrite IH. apply set_eq. intros n. destruct (decide _) as [Hin|Hnotin].
    + rewrite !elem_of_union, !elem_of_difference, elem_of_union,
        elem_of_singleton.
      split; [tauto|]. intros [?|[[->|?] ?]]; tauto.
    + rewrite !elem_of_union, !elem_of_difference, elem_of_union,
        elem_of_singleton.
      split; [|tauto]. intros [[->|?]|?]; tauto.
Qed.

Lemma parse_rosidl_spec_eq depends visited spec :
  parse_rosidl_spec depends visited spec
  = (depends ∪ (list_to_set (references spec) ∖ visited), field_map spec).
Proof.
  unfold parse_rosidl_spec. fold (field_map spec). by rewrite pending_fold.
Qed.

Local Arguments parse_rosidl_spec : simpl never.
Local Arguments store : simpl never.
Local Arguments prune : simpl never.

Section resolver.
Context `{Rosidl}.
Implicit Types (st : state) (name : string) (names : gset string).

Lemma parse_rosidl_file_visit st name :
  parse_rosidl_file st name = (r ← visit name; Ok (apply_visit st name r)).
Proof.
  assert (∀ refs : gset string, depends st = depends st ∪ (∅ ∖ refs)) as Hnone.
  { intros refs. apply set_eq. intros n.
    rewrite elem_of_union, elem_of_difference, elem_of_empty. tauto. }
  unfold parse_rosidl_file, visit, apply_visit.
  destruct (is_documentation_msg name); unfold mbind, result_bind.
  2:{ cbn [fst snd list_to_set foldr]. by rewrite <- Hnone. }
  destruct (str_split "/" name) as [|pkg [|ext [|msg [|? ?]]]]; try done.
  destruct (decide (ext = "msg")) as [->|Hmsg].
  - destruct (decide ("msg" = "srv")) as [?|_]; [done|].
    destruct (resolve_msg_file_path name) as [path|]; [|done].
    destruct (parse_message_file pkg path) as [spec|]; [|done].
    rewrite parse_rosidl_spec_eq, store_eq. done.
  - cbn [depends visited specs].
    destruct (decide (ext = "srv")) as [->|Hsrv].
    + destruct (resolve_msg_file_path name) as [path|]; [|done].
      destruct (parse_service_file pkg path) as [srv|]; [|done].
      rewrite !parse_rosidl_spec_eq, store_eq. cbn [fst snd]. do 2 f_equal.
      rewrite list_to_set_app_L. apply set_eq. intros n.
      rewrite !elem_of_union, !elem_of_difference, !elem_of_union. tauto.
    + cbn [fst snd list_to_set foldr]. by rewrite <- Hnone.
Qed.

Lemma iteration_visit st st' :
  iteration st st' ↔
  ∃ name r, name ∈ depends st ∧ visit name = Ok r ∧
    depends st' = (depends st ∖ {[name]})
                  ∪ (list_to_set r.2 ∖ ({[name]} ∪ visited st)) ∧
    visited st' = {[name]} ∪ visited st ∧
    specs st' = match r.1 with
                | Some entry => dict_set name entry (specs st)
                | None => specs st
                end.
Proof.
  unfold iteration. split.
  - intros (name & Hin & Hparse). rewrite parse_rosidl_file_visit in Hparse.
    destruct (visit name) as [r|] eqn:Hvisit; simpl in Hparse; [|done].
    injection Hparse as <-. by exists name, r.
  - intros (name & r & Hin & Hvisit & Hdep & Hvis & Hspecs).
    exists name. split; [done|]. rewrite parse_rosidl_file_visit, Hvisit.
    simpl. f_equal. destruct st'. simpl in *. unfold apply_visit. simpl.
    by rewrite Hdep, Hvis, Hspecs.
Qed.

Lemma visit_documentation name entry refs :
  visit name = Ok (Some entry, refs) → is_documentation_msg name = true.
Proof. unfold visit. by destruct (is_documentation_msg name). Qed.

Lemma entry_of_documentation name entry :
  entry_of name = Some entry → is_documentation_msg name = true.
Proof.
  unfold entry_of. destruct (visit name) as [[e refs]|] eqn:Hvisit; [|done].
  intros ->. by eapply visit_documentation.
Qed.
End resolver.

(** ** The resolver: the loop *)

Section loop.
Context `{Rosidl}.
Implicit Types (st : state) (name : string) (names : gset string).

Lemma invariant_initial names : invariant names (initial names).
Proof.
  split; simpl.
  - intros n [Hn|Hn]%elem_of_union; [by apply elem_of_empty in Hn|].
    by apply reachable_seed.
  - intros n Hn. apply elem_of_union. by right.
  - by intros n m ?%elem_of_empty.
  - intros n. by rewrite decide_False by apply not_elem_of_empty.
  - intros n _. apply not_elem_of_empty.
  - apply NoDup_nil_2.
  - by intros n ?%elem_of_empty.
Qed.

Lemma invariant_iteration names st st' :
  invariant names st → iteration st st' → invariant names st'.
Proof.
  intros [Hreach Hseeds Hclosed Hspecs Hdisj Hnodup Hvisit].
  intros (name & [entry refs] & Hname & Hv & Hdep & Hvis & Hsp)%iteration_visit.
  simpl in Hdep, Hsp.
  assert (refs_of name = refs) as Hrefs by (unfold refs_of; by rewrite Hv).
  assert (entry_of name = entry) as Hentry by (unfold entry_of; by rewrite Hv).
  assert (∀ n, n ∈ visited st' ↔ n = name ∨ n ∈ visited st) as Hvis'.
  { intros n. by rewrite Hvis, elem_of_union, elem_of_singleton. }
  assert (∀ n, n ∈ depends st' ↔
               (n ∈ depends st ∧ n ≠ name) ∨
               (n ∈ refs ∧ n ≠ name ∧ n ∉ visited st)) as Hdep'.
  { intros n. rewrite Hdep, elem_of_union, !elem_of_difference,
      elem_of_list_to_set, elem_of_union, elem_of_singleton. tauto. }
  assert (∀ n, n ∈ visited st ∪ depends st → n ∈ visited st' ∪ depends st')
    as Hmono.
  { intros n. rewrite !elem_of_union, Hvis', Hdep'.
    destruct (decide (n = name)); tauto. }
  split.
  - intros n. rewrite elem_of_union, Hvis', Hdep'.
    intros [[->|Hn]|[[Hn _]|[Hn _]]].
    + apply Hreach, elem_of_union. by right.
    + apply Hreach, elem_of_union. by left.
    + apply Hreach, elem_of_union. by right.
    + apply (reachable_ref names name); [|by rewrite Hrefs].
      apply Hreach, elem_of_union. by right.
  - intros n Hn. by apply Hmono, Hseeds.
  - intros n m [->|Hn]%Hvis' Hm.
    + rewrite Hrefs in Hm. rewrite elem_of_union, Hvis', Hdep'.
      destruct (decide (m = name)); [tauto|].
      destruct (decide (m ∈ visited st)); tauto.
    + by eapply Hmono, Hclosed.
  - intros n. destruct (decide (n = name)) as [->|Hne].
    + rewrite decide_True by (apply Hvis'; by left).
      rewrite Hsp, Hentry. destruct entry as [entry|].
      * apply dict_get_set_eq.
      * rewrite Hspecs. by rewrite decide_False by by apply Hdisj.
    + assert (dict_get n (specs st') = dict_get n (specs st)) as ->.
      { rewrite Hsp. destruct entry; [|done]. by apply dict_get_set_ne. }
      rewrite Hspecs. destruct (decide (n ∈ visited st)) as [Hin|Hnotin].
      * rewrite decide_True by (apply Hvis'; by right). done.
      * rewrite decide_False; [done|]. rewrite Hvis'. tauto.
  - intros n [[Hn Hne]|(_ & Hne & Hn)]%Hdep' [?|?]%Hvis'; try done.
    by apply (Hdisj n).
  - rewrite Hsp. destruct entry; [|done]. by apply dict_keys_set_NoDup.
  - intros n [->|Hn]%Hvis'; [by eexists | by apply Hvisit].
Qed.

Lemma invariant_rtc names st :
  rtc iteration (initial names) st → invariant names st.
Proof.
  revert st. apply (rtc_ind_r (R := iteration) (invariant names)).
  - apply invariant_initial.
  - intros st1 st2 _ Hstep Hinv. by eapply invariant_iteration.
Qed.

Lemma completes_visited names st :
  completes names st → ∀ n, n ∈ visited st ↔ reachable names n.
Proof.
  intros [Hrun Hempty] n. pose proof (invariant_rtc _ _ Hrun) as Hinv.
  assert (∀ m, m ∈ visited st ∪ depends st → m ∈ visited st) as Hdone.
  { intros m. rewrite Hempty, elem_of_union, elem_of_empty. tauto. }
  split.
  - intros Hn. apply (inv_reachable _ _ Hinv), elem_of_union. by left.
  - induction 1 as [m Hm|m ref _ IH Href].
    + by apply Hdone, (inv_seeds _ _ Hinv).
    + by apply Hdone, (inv_closed _ _ Hinv m).
Qed.

Lemma completes_specs names st :
  completes names st →
  ∀ n, dict_get n (specs st)
       = if decide (n ∈ visited st) then entry_of n else None.
Proof. intros [Hrun _]. apply (inv_specs names), invariant_rtc, Hrun. Qed.

(** C2: when the loop has completed, every seed name has been visited
    and every key of the table is a documentation type; a name that is
    not a documentation type is never a key. *)
Theorem resolver_visited_and_keys names st :
  completes names st →
  names ⊆ visited st ∧
  (∀ key, key ∈ dict_keys (specs st) → is_documentation_msg key = true) ∧
  (∀ name, is_documentation_msg name = false → name ∉ dict_keys (specs st)).
Proof.
  intros Hdone.
  assert (∀ key, key ∈ dict_keys (specs st) → is_documentation_msg key = true)
    as Hkeys.
  { intros key [entry Hget]%dict_get_is_Some.
    rewrite (completes_specs _ _ Hdone) in Hget.
    destruct (decide (key ∈ visited st)); [|done].
    by eapply entry_of_documentation. }
  split; [|split; [done|]].
  - intros n Hn. apply (completes_visited _ _ Hdone). by apply reachable_seed.
  - intros name Hno Hin. apply Hkeys in Hin. congruence.
Qed.
End loop.

(** ** The resolver: termination *)

Lemma pop_first_elem (s : gset string) : s ≠ ∅ → pop_first s ∈ s.
Proof.
  intros Hne. unfold pop_first.
  destruct (elements s) as [|n l] eqn:Hel.
  - by apply elements_empty_inv, leibniz_equiv in Hel.
  - simpl. apply elem_of_elements. rewrite Hel. left.
Qed.

Lemma pop_last_elem (s : gset string) : s ≠ ∅ → pop_last s ∈ s.
Proof.
  intros Hne. unfold pop_last.
  destruct (last (elements s)) as [n|] eqn:Hlast.
  - simpl. apply elem_of_elements. apply last_Some in Hlast as [l ->].
    apply elem_of_app. right. left.
  - apply last_None in Hlast. by apply elements_empty_inv, leibniz_equiv in Hlast.
Qed.

Section termination.
Context `{Rosidl}.
Implicit Types (st : state) (names universe : gset string).

Lemma visit_refs_within universe name entry refs :
  corpus_within universe → visit name = Ok (entry, refs) →
  ∀ ref, ref ∈ refs → ref ∈ universe.
Proof.
  intros [Hmsg Hsrv]. unfold visit.
  destruct (is_documentation_msg name);
    [|by intros [= <- <-] ref ?%elem_of_nil].
  destruct (str_split "/" name) as [|pkg [|ext [|msg [|? ?]]]]; try done.
  destruct (decide (ext = "msg")); [|destruct (decide (ext = "srv"))].
  - destruct (resolve_msg_file_path name) as [path|]; simpl; [|done].
    destruct (parse_message_file pkg path) as [spec|] eqn:Hparse; simpl; [|done].
    intros [= <- <-]. by eapply Hmsg.
  - destruct (resolve_msg_file_path name) as [path|]; simpl; [|done].
    destruct (parse_service_file pkg path) as [srv|] eqn:Hparse; simpl; [|done].
    intros [= <- <-]. by eapply Hsrv.
  - by intros [= <- <-] ref ?%elem_of_nil.
Qed.

Lemma iteration_grows names st st' :
  invariant names st → iteration st st' →
  visited st ⊂ visited st' ∧ size (visited st') = S (size (visited st)).
Proof.
  intros Hinv (name & r & Hname & _ & _ & Hvis & _)%iteration_visit.
  pose proof (inv_disjoint _ _ Hinv name Hname) as Hfresh.
  rewrite Hvis. split.
  - split.
    + intros n Hn. apply elem_of_union. by right.
    + intros Hsub. apply Hfresh, Hsub, elem_of_union. left.
      by apply elem_of_singleton.
  - rewrite size_union, size_singleton; [done|].
    intros n ->%elem_of_singleton. done.
Qed.

Lemma iteration_within names universe st st' :
  corpus_within universe →
  (∀ n, n ∈ visited st ∪ depends st → n ∈ universe) →
  iteration st st' →
  ∀ n, n ∈ visited st' ∪ depends st' → n ∈ universe.
Proof.
  intros Hcorpus Hin (name & [entry refs] & Hname & Hv & Hdep & Hvis & _)%iteration_visit n.
  rewrite Hdep, Hvis. simpl.
  rewrite !elem_of_union, !elem_of_difference, elem_of_singleton,
    elem_of_list_to_set.
  intros [[->|Hn]|[[Hn _]|[Hn _]]].
  - apply Hin, elem_of_union. by right.
  - apply Hin, elem_of_union. by left.
  - apply Hin, elem_of_union. by right.
  - by eapply visit_refs_within.
Qed.

Lemma rtc_within names universe st :
  corpus_within universe → names ⊆ universe →
  rtc iteration (initial names) st →
  ∀ n, n ∈ visited st ∪ depends st → n ∈ universe.
Proof.
  intros Hcorpus Hnames. revert st.
  apply (rtc_ind_r (R := iteration)
           (fun st => ∀ n, n ∈ visited st ∪ depends st → n ∈ universe)).
  - simpl. intros n [?%elem_of_empty|Hn]%elem_of_union; [done|].
    by apply Hnames.
  - intros st1 st2 _ Hstep Hin. by eapply iteration_within.
Qed.

Lemma resolve_loop_sound pop fuel st st' :
  (∀ s : gset string, s ≠ ∅ → pop s ∈ s) →
  resolve_loop pop fuel st = Finished st' →
  rtc iteration st st' ∧ depends st' = ∅.
Proof.
  intros Hpop. revert st. induction fuel as [|fuel IH]; intros st; simpl.
  - destruct (decide (depends st = ∅)); [|done]. by intros [= <-].
  - destruct (decide (depends st = ∅)) as [Hempty|Hne]; [by intros [= <-]|].
    destruct (parse_rosidl_file _ _) as [st1|] eqn:Hparse; [|done].
    intros [Hrun Hdone]%IH. split; [|done].
    apply rtc_l with st1; [|done].
    exists (pop (depends st)). split; [by apply Hpop | done].
Qed.

Lemma resolve_loop_fuel names universe pop fuel st :
  corpus_within universe → names ⊆ universe →
  (∀ s : gset string, s ≠ ∅ → pop s ∈ s) →
  rtc iteration (initial names) st →
  size universe ≤ fuel + size (visited st) →
  resolve_loop pop fuel st ≠ OutOfFuel ∧
  ((∀ n, n ∈ universe → ∃ r, visit n = Ok r) →
   ∃ st', resolve_loop pop fuel st = Finished st').
Proof.
  intros Hcorpus Hnames Hpop. revert st.
  induction fuel as [|fuel IH]; intros st Hrun Hfuel; simpl;
    (destruct (decide (depends st = ∅)) as [Hempty|Hne];
     [split; [done | by eexists]|]).
  - exfalso.
    pose proof (invariant_rtc _ _ Hrun) as Hinv.
    pose proof (rtc_within _ _ _ Hcorpus Hnames Hrun) as Hin.
    pose proof (Hpop _ Hne) as Hname.
    assert ({[pop (depends st)]} ∪ visited st ⊆ universe) as Hsub.
    { intros n [->%elem_of_singleton|Hn]%elem_of_union;
        apply Hin, elem_of_union; [by right | by left]. }
    apply subseteq_size in Hsub. rewrite size_union, size_singleton in Hsub.
    + simpl in Hfuel. lia.
    + intros n ->%elem_of_singleton. by apply (inv_disjoint _ _ Hinv).
  - pose proof (Hpop _ Hne) as Hname.
    pose proof (rtc_within _ _ _ Hcorpus Hnames Hrun) as Hin.
    destruct (parse_rosidl_file _ _) as [st1|e] eqn:Hparse.
    + assert (iteration st st1) as Hstep by (by exists (pop (depends st))).
      destruct (iteration_grows names st st1) as [_ Hsize];
        [by apply invariant_rtc | done |].
      apply IH; [by eapply rtc_r | lia].
    + split; [done|]. intros Hok. exfalso.
      rewrite parse_rosidl_file_visit in Hparse.
      destruct (Hok (pop (depends st))) as [r Hr].
      { apply Hin, elem_of_union. by right. }
      by rewrite Hr in Hparse.
Qed.

Lemma nsteps_visited names universe n st :
  corpus_within universe → names ⊆ universe →
  nsteps iteration n (initial names) st →
  n = size (visited st) ∧ n ≤ size universe.
Proof.
  intros Hcorpus Hnames. revert st. induction n as [|n IH]; intros st Hrun.
  - inv Hrun. split; [reflexivity | lia].
  - apply nsteps_inv_r in Hrun as (st0 & Hrun & Hstep).
    destruct (IH _ Hrun) as [Hn _].
    assert (rtc iteration (initial names) st0) as Hrtc
      by (apply rtc_nsteps; by exists n).
    destruct (iteration_grows names st0 st) as [_ Hsize];
      [by apply invariant_rtc | done |].
    split; [lia|]. rewrite Hn, <- Hsize. apply subseteq_size.
    intros m Hm. apply (rtc_within names universe st); [done..| |].
    + by eapply rtc_r.
    + apply elem_of_union. by left.
Qed.

(** C3: over a corpus whose type names all lie in a finite universe, and
    for seed names from it, every iteration of the loop adds a name to
    the visited set, which stays inside the universe, so no sequence of
    iterations is longer than the universe has names; whatever [set.pop]
    picks, the loop ends within that many iterations, with nothing
    pending unless a collaborator raised, and it ends with nothing
    pending when no visit of the universe raises. *)
Theorem resolver_terminates names universe (pop : gset string → string) :
  corpus_within universe → names ⊆ universe →
  (∀ s : gset string, s ≠ ∅ → pop s ∈ s) →
  (∀ st st', rtc iteration (initial names) st → iteration st st' →
     visited st ⊂ visited st' ∧ visited st' ⊆ universe) ∧
  (∀ n st, nsteps iteration n (initial names) st →
     n = size (visited st) ∧ n ≤ size universe) ∧
  ((∃ st, resolve_loop pop (size universe) (initial names) = Finished st ∧
          completes names st) ∨
   (∃ e, resolve_loop pop (size universe) (initial names) = Aborted e)) ∧
  ((∀ n, n ∈ universe → ∃ r, visit n = Ok r) →
   ∃ st, resolve_loop pop (size universe) (initial names) = Finished st ∧
         completes names st).
Proof.
  intros Hcorpus Hnames Hpop.
  destruct (resolve_loop_fuel names universe pop (size universe) (initial names))
    as [Hfuel Hok]; [done.. | apply rtc_refl | simpl; lia |].
  split; [|split; [by intros n st; apply nsteps_visited|split]].
  - intros st st' Hrun Hstep. split.
    + apply (iteration_grows names); [by apply invariant_rtc | done].
    + intros n Hn. apply (rtc_within names universe st'); [done..| |].
      * by eapply rtc_r.
      * apply elem_of_union. by left.
  - destruct (resolve_loop pop (size universe) (initial names))
      as [st|e|] eqn:Hloop; [left|right|done].
    + exists st. split; [done|]. by apply (resolve_loop_sound pop (size universe)).
    + by exists e.
  - intros Hall. destruct (Hok Hall) as [st Hloop].
    exists st. split; [done|]. by apply (resolve_loop_sound pop (size universe)).
Qed.
End termination.

(** ** The YAML export is independent of the order of the visits *)

Section export.
Context `{Rosidl}.

(** C8: two runs of the loop over the same corpus and seed names,
    whatever they pop, end with the same visited set and the same
    table as a mapping (the same keys with the same entries, inserted in
    possibly different orders), and the dumper, which sorts the keys,
    produces the same document from both. *)
Theorem export_deterministic (names : gset string) (st1 st2 : state) :
  completes names st1 → completes names st2 →
  visited st1 = visited st2 ∧
  (∀ key, dict_get key (specs st1) = dict_get key (specs st2)) ∧
  specs st1 ≡ₚ specs st2 ∧
  (∀ emit, yaml_dump emit (specs st1) = yaml_dump emit (specs st2)).
Proof.
  intros Hdone1 Hdone2.
  assert (visited st1 = visited st2) as Hvisited.
  { apply set_eq. intros n.
    by rewrite (completes_visited _ _ Hdone1), (completes_visited _ _ Hdone2). }
  assert (∀ key, dict_get key (specs st1) = dict_get key (specs st2)) as Hget.
  { intros key.
    rewrite (completes_specs _ _ Hdone1), (completes_specs _ _ Hdone2).
    by rewrite Hvisited. }
  assert (NoDup (dict_keys (specs st1))) as Hnodup1
    by (apply (inv_nodup names), invariant_rtc, Hdone1).
  assert (NoDup (dict_keys (specs st2))) as Hnodup2
    by (apply (inv_nodup names), invariant_rtc, Hdone2).
  assert (specs st1 ≡ₚ specs st2) as Hperm by (by apply dict_eq_Permutation).
  repeat split; try done.
  intros emit.
  assert (represent_specs (specs st1) = represent_specs (specs st2)) as Hnode.
  { unfold represent_specs, represent_dict.
    by rewrite (merge_sort_key_le_Permutation _ _ Hnodup1 Hperm). }
  unfold yaml_dump, represent_dict. simpl. by rewrite Hnode.
Qed.
End export.

(** ** Array suffixes *)

Lemma has_char_app c (a b : string) :
  has_char c (a +:+ b) = has_char c a || has_char c b.
Proof.
  induction a as [|x a IH]; [done|].
  change (String x a +:+ b) with (String x (a +:+ b)). simpl.
  by rewrite IH, orb_assoc.
Qed.

Lemma strip_array_suffix_cons c s :
  strip_array_suffix (String c s)
  = if Ascii.eqb c "[" then "" else String c (strip_array_suffix s).
Proof.
  unfold strip_array_suffix. simpl. destruct (Ascii.eqb c "["); [done|].
  destruct (str_split "[" s) eqn:Hs; [|done].
  by destruct (str_split_nonempty "[" s).
Qed.

Lemma strip_array_suffix_app (a b : string) :
  strip_array_suffix (a +:+ b)
  = if has_char "[" a then strip_array_suffix a else a +:+ strip_array_suffix b.
Proof.
  induction a as [|c a IH]; [done|].
  change (String c a +:+ b) with (String c (a +:+ b)).
  rewrite !strip_array_suffix_cons. simpl.
  destruct (Ascii.eqb c "["); [done|]. simpl. rewrite IH.
  by destruct (has_char "[" a).
Qed.

Lemma strip_array_suffix_has_char c s :
  has_char c s = false → has_char c (strip_array_suffix s) = false.
Proof.
  induction s as [|x s IH]; [done|].
  rewrite strip_array_suffix_cons. simpl. intros [Hx Hs]%orb_false_iff.
  destruct (Ascii.eqb x "["); [done|]. simpl. by rewrite Hx, IH.
Qed.

Lemma strip_array_suffix_idempotent s :
  strip_array_suffix (strip_array_suffix s) = strip_array_suffix s.
Proof.
  assert (has_char "[" (strip_array_suffix s) = false) as Hno.
  { apply (str_split_parts "[" s). unfold strip_array_suffix.
    destruct (str_split "[" s) eqn:Hs; [|left].
    by destruct (str_split_nonempty "[" s). }
  unfold strip_array_suffix at 1. by rewrite (str_split_no_sep _ _ Hno).
Qed.

(** A name met as a field type, once its array suffix is dropped, either
    does not have three parts or has [msg] as its second part. *)
Lemma strip_normalize_parts t pkg ext msg :
  str_split "/" (strip_array_suffix (normalize_msg_name t)) = [pkg; ext; msg] →
  ext = "msg".
Proof.
  destruct (str_split "/" t) as [|p0 [|p1 rest]] eqn:Ht.
  - by destruct (str_split_nonempty "/" t).
  - destruct (str_split_single _ _ _ Ht) as [-> Hno].
    rewrite (normalize_bare t Hno).
    by rewrite (str_split_no_sep "/" _ (strip_array_suffix_has_char "/" t Hno)).
  - destruct (normalize_parts t p0 p1 rest Ht) as [-> _].
    assert (has_char "/" p0 = false) as H0
      by (apply (str_split_parts "/" t); rewrite Ht; left).
    assert (has_char "/" p1 = false) as H1
      by (apply (str_split_parts "/" t); rewrite Ht; right; left).
    rewrite strip_array_suffix_app. destruct (has_char "[" p0).
    + by rewrite (str_split_no_sep "/" _ (strip_array_suffix_has_char "/" p0 H0)).
    + rewrite (strip_array_suffix_app "/msg/" p1).
      change (has_char "[" "/msg/") with false. cbv iota.
      change (p0 +:+ "/msg/" +:+ strip_array_suffix p1)
        with (p0 +:+ String "/" "msg" +:+ String "/" (strip_array_suffix p1)).
      rewrite (str_split_join3 "/" p0 "msg" (strip_array_suffix p1));
        [by intros [= _ <- _] | done | done |].
      by apply strip_array_suffix_has_char.
Qed.

(** ** The entries of the table *)

Lemma dict_values_set {V : Type} k (x v : V) (d : dict V) :
  v ∈ dict_values (dict_set k x d) → v = x ∨ v ∈ dict_values d.
Proof.
  unfold dict_values. induction d as [|[k0 v0] d IH]; simpl.
  - intros ->%list_elem_of_singleton. by left.
  - destruct (decide (k0 = k)); simpl; rewrite !elem_of_cons; [tauto|].
    intros [->|Hin]; [tauto|]. destruct (IH Hin); tauto.
Qed.

Lemma field_map_values spec value :
  value ∈ dict_values (field_map spec) →
  ∃ f, f ∈ fields spec ∧ value = normalize_msg_name (field_type f).
Proof.
  unfold field_map.
  assert (∀ l (d : dict string),
            value ∈ dict_values
              (foldl (fun d f => dict_set (field_name f)
                                   (normalize_msg_name (field_type f)) d) d l) →
            value ∈ dict_values d ∨
            ∃ f, f ∈ l ∧ value = normalize_msg_name (field_type f)) as Hgen.
  { induction l as [|f l IH]; intros d; simpl; [by left|].
    intros [[->|Hin]%dict_values_set | (f' & Hf' & ->)]%IH.
    - right. exists f. split; [left | done].
    - by left.
    - right. exists f'. split; [by right | done]. }
  intros [?%elem_of_nil|Hf]%Hgen; done.
Qed.

Lemma prune_values entry fields :
  fields ∈ dict_values (prune entry) → fields ∈ dict_values entry.
Proof.
  unfold dict_values, prune.
  intros ([k v] & -> & [_ Hin]%list_elem_of_filter)%list_elem_of_fmap.
  apply list_elem_of_fmap. by exists (k, v).
Qed.

Section entries.
Context `{Rosidl}.

Lemma visit_values name entry refs fields value :
  visit name = Ok (Some entry, refs) →
  fields ∈ dict_values entry → value ∈ dict_values fields →
  strip_array_suffix value ∈ refs ∧ ∃ t, value = normalize_msg_name t.
Proof.
  unfold visit. destruct (is_documentation_msg name); [|done].
  destruct (str_split "/" name) as [|pkg [|ext [|msg [|? ?]]]]; try done.
  assert (∀ spec, value ∈ dict_values (field_map spec) →
                  strip_array_suffix value ∈ references spec ∧
                  ∃ t, value = normalize_msg_name t) as Hspec.
  { intros spec Hvalue. split.
    - unfold references. apply list_elem_of_fmap. by exists value.
    - apply field_map_values in Hvalue as (f & _ & ->). by eexists. }
  destruct (decide (ext = "msg")); [|destruct (decide (ext = "srv"))].
  - destruct (resolve_msg_file_path name) as [path|]; simpl; [|done].
    destruct (parse_message_file pkg path) as [spec|]; simpl; [|done].
    intros [= <- <-] Hfields%prune_values Hvalue.
    apply list_elem_of_singleton in Hfields as ->. by apply Hspec.
  - destruct (resolve_msg_file_path name) as [path|]; simpl; [|done].
    destruct (parse_service_file pkg path) as [srv|]; simpl; [|done].
    intros [= <- <-] Hfields%prune_values Hvalue.
    apply elem_of_cons in Hfields as [->|Hfields].
    + destruct (Hspec _ Hvalue) as [Href Ht]. split; [|done].
      apply elem_of_app. by left.
    + apply list_elem_of_singleton in Hfields as ->.
      destruct (Hspec _ Hvalue) as [Href Ht]. split; [|done].
      apply elem_of_app. by right.
  - done.
Qed.

Lemma visit_field_type t r :
  is_documentation_msg (strip_array_suffix (normalize_msg_name t)) = true →
  visit (strip_array_suffix (normalize_msg_name t)) = Ok r →
  ∃ entry, r.1 = Some entry.
Proof.
  intros Hdoc. unfold visit. rewrite Hdoc.
  destruct (str_split "/" _) as [|pkg [|ext [|msg [|? ?]]]] eqn:Hparts; try done.
  apply strip_normalize_parts in Hparts as ->.
  rewrite decide_True by done.
  destruct (resolve_msg_file_path _) as [path|]; simpl; [|done].
  destruct (parse_message_file pkg path) as [spec|]; simpl; [|done].
  intros [= <-]. by eexists.
Qed.

(** No dangling reference: a documentation type met as a field type of
    the completed table is a key of the table. *)
Lemma completes_closed (names : gset string) (st : state) a entry fields value :
  completes names st →
  (a, entry) ∈ specs st → fields ∈ dict_values entry →
  value ∈ dict_values fields →
  is_documentation_msg (strip_array_suffix value) = true →
  strip_array_suffix value ∈ dict_keys (specs st).
Proof.
  intros Hdone Ha Hfields Hvalue Hdoc.
  pose proof Hdone as [Hrun Hempty].
  pose proof (invariant_rtc _ _ Hrun) as Hinv.
  apply (dict_elem_get _ _ _ (inv_nodup _ _ Hinv)) in Ha.
  rewrite (inv_specs _ _ Hinv) in Ha.
  destruct (decide (a ∈ visited st)) as [Hvis|]; [|done].
  unfold entry_of in Ha.
  destruct (visit a) as [[e refs]|] eqn:Hvisit; [|done]. subst e.
  destruct (visit_values _ _ _ _ _ Hvisit Hfields Hvalue) as [Href [t ->]].
  assert (strip_array_suffix (normalize_msg_name t) ∈ visited st) as Hin.
  { pose proof (inv_closed _ _ Hinv a (strip_array_suffix (normalize_msg_name t)) Hvis)
      as Hclosed.
    unfold refs_of in Hclosed. rewrite Hvisit in Hclosed.
    apply Hclosed in Href. rewrite Hempty in Href.
    apply elem_of_union in Href as [?|?%elem_of_empty]; done. }
  destruct (inv_visit _ _ Hinv _ Hin) as [r Hr].
  destruct (visit_field_type t r Hdoc Hr) as [entry' Hentry'].
  apply dict_get_is_Some. exists entry'.
  rewrite (inv_specs _ _ Hinv), decide_True by done.
  unfold entry_of. rewrite Hr. by destruct r.
Qed.
End entries.

(** ** The dependency graph *)

Lemma foldM_app {A S : Type} (f : S → A → result S) (s : S) (l1 l2 : list A) :
  foldM f s (l1 ++ l2) = (s' ← foldM f s l1; foldM f s' l2).
Proof.
  revert s. induction l1 as [|a l1 IH]; intros s; simpl; [done|].
  destruct (f s a) as [s'|]; simpl; [apply IH | done].
Qed.

Lemma foldM_ext {A S : Type} (f g : S → A → result S) (s : S) (l : list A) :
  (∀ s a, f s a = g s a) → foldM f s l = foldM g s l.
Proof.
  intros Hfg. revert s. induction l as [|a l IH]; intros s; simpl; [done|].
  rewrite Hfg. destruct (g s a); simpl; [apply IH | done].
Qed.

Lemma foldM_fmap {A B S : Type} (f : S → B → result S) (h : A → B) (s : S)
    (l : list A) :
  foldM f s (h <$> l) = foldM (fun s a => f s (h a)) s l.
Proof.
  revert s. induction l as [|a l IH]; intros s; simpl; [done|].
  destruct (f s (h a)); simpl; [apply IH | done].
Qed.

Lemma foldM_bind {A B S : Type} (f : S → B → result S) (k : A → list B) (s : S)
    (l : list A) :
  foldM f s (l ≫= k) = foldM (fun s a => foldM f s (k a)) s l.
Proof.
  revert s. induction l as [|a l IH]; intros s; [done|].
  change ((a :: l) ≫= k) with (k a ++ (l ≫= k)). rewrite foldM_app. simpl.
  destruct (foldM f s (k a)); simpl; [apply IH | done].
Qed.

Lemma dependency_graph_flat specs :
  dependency_graph specs
  = foldM (fun g use => record_use use.1 g use.2)
          (empty_sets specs, empty_sets specs) (field_uses specs).
Proof.
  unfold dependency_graph, field_uses. rewrite foldM_bind.
  apply foldM_ext. intros g item. rewrite foldM_bind.
  apply foldM_ext. intros g' fields. by rewrite foldM_fmap.
Qed.

Lemma field_uses_elem specs a value :
  (a, value) ∈ field_uses specs ↔
  ∃ entry fields, (a, entry) ∈ specs ∧ fields ∈ dict_values entry ∧
                  value ∈ dict_values fields.
Proof.
  unfold field_uses. rewrite list_elem_of_bind. split.
  - intros ([a' entry] & (fields & Hin & Hfields)%list_elem_of_bind & Hitem).
    apply list_elem_of_fmap in Hin as (v & [= -> ->] & Hv). simpl in *.
    by exists entry, fields.
  - intros (entry & fields & Hitem & Hfields & Hvalue).
    exists (a, entry). split; [|done]. apply list_elem_of_bind.
    exists fields. split; [|done]. apply list_elem_of_fmap. by exists value.
Qed.

Lemma empty_sets_keys specs : dict_keys (empty_sets specs) = dict_keys specs.
Proof.
  unfold dict_keys, empty_sets. rewrite <- list_fmap_compose.
  by apply list_fmap_ext.
Qed.

Lemma empty_sets_at specs k : set_at (empty_sets specs) k = ∅.
Proof.
  unfold set_at, empty_sets. induction specs as [|[k0 v0] specs IH]; simpl; [done|].
  by destruct (decide (k0 = k)).
Qed.

Lemma set_at_set k s (d : dict (gset string)) a :
  set_at (dict_set k s d) a = if decide (a = k) then s else set_at d a.
Proof.
  unfold set_at. destruct (decide (a = k)) as [->|Hne].
  - by rewrite dict_get_set_eq.
  - by rewrite dict_get_set_ne.
Qed.

Lemma set_add_at_ok k x (d : dict (gset string)) :
  k ∈ dict_keys d →
  ∃ d', set_add_at k x d = Ok d' ∧ dict_keys d' = dict_keys d ∧
        ∀ a b, b ∈ set_at d' a ↔ b ∈ set_at d a ∨ (a = k ∧ b = x).
Proof.
  intros Hk. pose proof Hk as [s Hs]%dict_get_is_Some.
  exists (dict_set k ({[x]} ∪ s) d). split; [|split].
  - unfold set_add_at, dict_item. by rewrite Hs.
  - by apply dict_keys_set_present.
  - intros a b. rewrite set_at_set. destruct (decide (a = k)) as [->|Hne].
    + unfold set_at. rewrite Hs. simpl.
      rewrite elem_of_union, elem_of_singleton. tauto.
    + tauto.
Qed.

Lemma record_use_documentation u g value :
  is_documentation_msg (strip_array_suffix value) = true →
  record_use u g value
  = (type_uses ← set_add_at u (strip_array_suffix value) g.1;
     type_used ← set_add_at (strip_array_suffix value) u g.2;
     Ok (type_uses, type_used)).
Proof. intros Hdoc. unfold record_use. by rewrite Hdoc. Qed.

Lemma record_use_other u g value :
  is_documentation_msg (strip_array_suffix value) = false →
  record_use u g value = Ok g.
Proof. intros Hdoc. unfold record_use. by rewrite Hdoc. Qed.

Lemma record_uses_ok uses (type_uses type_used : dict (gset string)) :
  (∀ a value, (a, value) ∈ uses → a ∈ dict_keys type_uses) →
  (∀ a value, (a, value) ∈ uses →
     is_documentation_msg (strip_array_suffix value) = true →
     strip_array_suffix value ∈ dict_keys type_used) →
  ∃ type_uses' type_used',
    foldM (fun g use => record_use use.1 g use.2) (type_uses, type_used) uses
      = Ok (type_uses', type_used') ∧
    dict_keys type_uses' = dict_keys type_uses ∧
    dict_keys type_used' = dict_keys type_used ∧
    (∀ a b, b ∈ set_at type_uses' a ↔
       b ∈ set_at type_uses a ∨
       ∃ value, (a, value) ∈ uses ∧ b = strip_array_suffix value ∧
                is_documentation_msg b = true) ∧
    (∀ a b, a ∈ set_at type_used' b ↔
       a ∈ set_at type_used b ∨
       ∃ value, (a, value) ∈ uses ∧ b = strip_array_suffix value ∧
                is_documentation_msg b = true).
Proof.
  revert type_uses type_used.
  set (F := fun g (use : string * string) => record_use use.1 g use.2).
  induction uses as [|[u value] uses IH]; intros type_uses type_used Huser Hname.
  - exists type_uses, type_used. repeat split; try done; try tauto.
    + intros [?|(value & ?%elem_of_nil & _)]; done.
    + intros [?|(value & ?%elem_of_nil & _)]; done.
  - assert (∀ a v, (a, v) ∈ uses → (a, v) ∈ (u, value) :: uses) as Htail
      by (intros; by right).
    change (foldM F (type_uses, type_used) ((u, value) :: uses))
      with (g ← record_use u (type_uses, type_used) value; foldM F g uses).
    destruct (is_documentation_msg (strip_array_suffix value)) eqn:Hdoc.
    + rewrite (record_use_documentation _ _ _ Hdoc). cbn [fst snd].
      destruct (set_add_at_ok u (strip_array_suffix value) type_uses)
        as (uses1 & -> & Hkeys1 & Hat1); [by apply (Huser u value); left|].
      destruct (set_add_at_ok (strip_array_suffix value) u type_used)
        as (used1 & Hused1 & Hkeys2 & Hat2); [by apply (Hname u value); [left|]|].
      simpl. rewrite Hused1. simpl.
      destruct (IH uses1 used1) as (uses2 & used2 & Hfold & Hk1 & Hk2 & Hu & Hd).
      { intros a v Hin. rewrite Hkeys1. by eapply Huser, Htail. }
      { intros a v Hin Hv. rewrite Hkeys2. by eapply Hname; [apply Htail|]. }
      exists uses2, used2. rewrite Hfold, Hk1, Hk2, Hkeys1, Hkeys2.
      repeat split; try done.
      * rewrite Hu, Hat1. intros [[?|[-> ->]]|(v & Hin & Hb)].
        -- by left.
        -- right. exists value. split; [left | done].
        -- right. exists v. split; [by right | done].
      * rewrite Hu, Hat1. intros [?|(v & [[= -> ->]|Hin]%elem_of_cons & -> & Hb)].
        -- by do 2 left.
        -- left. by right.
        -- right. by exists v.
      * rewrite Hd, Hat2. intros [[?|[-> ->]]|(v & Hin & Hb)].
        -- by left.
        -- right. exists value. split; [left | done].
        -- right. exists v. split; [by right | done].
      * rewrite Hd, Hat2. intros [?|(v & [[= -> ->]|Hin]%elem_of_cons & -> & Hb)].
        -- by do 2 left.
        -- left. by right.
        -- right. by exists v.
    + rewrite (record_use_other _ _ _ Hdoc). simpl.
      destruct (IH type_uses type_used) as (uses2 & used2 & Hfold & Hk1 & Hk2 & Hu & Hd).
      { intros a v Hin. by eapply Huser, Htail. }
      { intros a v Hin Hv. by eapply Hname; [apply Htail|]. }
      exists uses2, used2. rewrite Hfold, Hk1, Hk2.
      repeat split; try done.
      * rewrite Hu. intros [?|(v & Hin & Hb)]; [by left|].
        right. exists v. split; [by right | done].
      * rewrite Hu. intros [?|(v & [[= -> ->]|Hin]%elem_of_cons & -> & Hb)].
        -- by left.
        -- congruence.
        -- right. by exists v.
      * rewrite Hd. intros [?|(v & Hin & Hb)]; [by left|].
        right. exists v. split; [by right | done].
      * rewrite Hd. intros [?|(v & [[= -> ->]|Hin]%elem_of_cons & -> & Hb)].
        -- by left.
        -- congruence.
        -- right. by exists v.
Qed.

Section graph.
Context `{Rosidl}.

(** C1: on the table of a completed run the dependency computation
    raises nothing; [type_uses] and [type_used] have exactly the keys of
    the table; [b] is in [type_uses[a]] exactly when the type [a] has a
    field of documentation type [b], and exactly when [a] is in
    [type_used[b]]. *)
Theorem dependency_graph_transpose (names : gset string) (st : state) :
  completes names st →
  ∃ type_uses type_used,
    dependency_graph (specs st) = Ok (type_uses, type_used) ∧
    dict_keys type_uses = dict_keys (specs st) ∧
    dict_keys type_used = dict_keys (specs st) ∧
    (∀ a b, b ∈ set_at type_uses a ↔ has_field_of (specs st) a b) ∧
    (∀ a b, b ∈ set_at type_uses a ↔ a ∈ set_at type_used b).
Proof.
  intros Hdone.
  destruct (record_uses_ok (field_uses (specs st))
              (empty_sets (specs st)) (empty_sets (specs st)))
    as (type_uses & type_used & Hfold & Hkeys1 & Hkeys2 & Huses & Hused).
  { intros a value (entry & fields & Ha & _)%field_uses_elem.
    rewrite empty_sets_keys. by apply (dict_elem_keys _ entry). }
  { intros a value (entry & fields & Ha & Hfields & Hvalue)%field_uses_elem Hdoc.
    rewrite empty_sets_keys. by eapply completes_closed. }
  exists type_uses, type_used. rewrite dependency_graph_flat.
  rewrite empty_sets_keys in Hkeys1, Hkeys2.
  split; [done|]. split; [done|]. split; [done|].
  assert (∀ a b,
            (∃ value, (a, value) ∈ field_uses (specs st) ∧
                      b = strip_array_suffix value ∧
                      is_documentation_msg b = true)
            ↔ has_field_of (specs st) a b) as Hfield.
  { intros a b. unfold has_field_of. split.
    - intros (value & (entry & fields & ? & ? & ?)%field_uses_elem & ? & ?).
      by exists entry, fields, value.
    - intros (entry & fields & value & ? & ? & ? & ? & ?).
      exists value. split; [|done]. apply field_uses_elem.
      by exists entry, fields. }
  split.
  - intros a b. rewrite Huses, empty_sets_at, elem_of_empty, Hfield. tauto.
  - intros a b. rewrite Huses, Hused, !empty_sets_at, !elem_of_empty. tauto.
Qed.
End graph.

(** ** The properties on a concrete corpus *)

Local Ltac list_cases Href :=
  match type of Href with
  | _ ∈ ?l => let l' := eval vm_compute in l in change l with l' in Href
  end;
  repeat (apply elem_of_cons in Href as [->|Href];
          [vm_compute; reflexivity|]);
  by apply elem_of_nil in Href.

Lemma demo_corpus_within : corpus_within (H := demo_rosidl) demo_universe.
Proof.
  split.
  - intros pkg path msg. simpl. unfold demo_message.
    repeat case_decide; intros [= <-] ref Href; list_cases Href.
  - intros pkg path srv. simpl. unfold demo_service.
    repeat case_decide; intros [= <-] ref Href; list_cases Href.
Qed.

Lemma demo_completes : completes (H := demo_rosidl) demo_names demo_final.
Proof.
  apply (resolve_loop_sound (H := demo_rosidl) pop_first 11).
  - apply pop_first_elem.
  - by vm_compute.
Qed.

Lemma demo_completes_last : completes (H := demo_rosidl) demo_names demo_final_last.
Proof.
  apply (resolve_loop_sound (H := demo_rosidl) pop_last 11).
  - apply pop_last_elem.
  - by vm_compute.
Qed.

Lemma demo_names_within : demo_names ⊆ demo_universe.
Proof. intros n ->%elem_of_singleton. vm_compute. reflexivity. Qed.

(** C1 on the table of the concrete corpus. *)
Lemma dependency_graph_transpose_witness :
  ∃ type_uses type_used,
    dependency_graph (specs demo_final) = Ok (type_uses, type_used) ∧
    dict_keys type_uses = dict_keys (specs demo_final) ∧
    dict_keys type_used = dict_keys (specs demo_final) ∧
    (∀ a b, b ∈ set_at type_uses a ↔ has_field_of (specs demo_final) a b) ∧
    (∀ a b, b ∈ set_at type_uses a ↔ a ∈ set_at type_used b).
Proof.
  exact (dependency_graph_transpose (H := demo_rosidl) demo_names demo_final
           demo_completes).
Defined.

(** C2 on the run of the concrete corpus. *)
Lemma resolver_visited_and_keys_witness :
  demo_names ⊆ visited demo_final ∧
  (∀ key, key ∈ dict_keys (specs demo_final) → is_documentation_msg key = true) ∧
  (∀ name, is_documentation_msg name = false →
           name ∉ dict_keys (specs demo_final)).
Proof.
  exact (resolver_visited_and_keys (H := demo_rosidl) demo_names demo_final
           demo_completes).
Defined.

(** In the table of the concrete corpus a type of another package and a
    built-in type occur as field types and are not keys. *)
Example demo_leaf_types :
  dict_get "autoware_adapi_v1_msgs/srv/SetRoute" (specs demo_final)
    = Some [("req", [("header", "std_msgs/msg/Header");
                     ("goal", "geometry_msgs/msg/Pose");
                     ("option", "autoware_adapi_v1_msgs/msg/RouteOption");
                     ("segments", "autoware_adapi_v1_msgs/msg/RouteSegment[]")]);
            ("res", [("status", "autoware_adapi_v1_msgs/msg/ResponseStatus")])] ∧
  dict_get "autoware_adapi_v1_msgs/msg/RouteOption" (specs demo_final)
    = Some [("msg", [("allow_goal_modification", "bool")])] ∧
  dict_get "std_msgs/msg/Header" (specs demo_final) = None ∧
  dict_get "bool" (specs demo_final) = None ∧
  "std_msgs/msg/Header" ∈ visited demo_final ∧
  "bool" ∈ visited demo_final.
Proof. repeat split; vm_compute; reflexivity. Qed.

(** C3 on the concrete corpus and its universe of eleven names. *)
Lemma resolver_terminates_witness :
  (∀ st st', rtc (iteration (H := demo_rosidl)) (initial demo_names) st →
     iteration (H := demo_rosidl) st st' →
     visited st ⊂ visited st' ∧ visited st' ⊆ demo_universe) ∧
  (∀ n st, nsteps (iteration (H := demo_rosidl)) n (initial demo_names) st →
     n = size (visited st) ∧ n ≤ size demo_universe) ∧
  ((∃ st, resolve_loop (H := demo_rosidl) pop_first (size demo_universe)
            (initial demo_names) = Finished st ∧
          completes (H := demo_rosidl) demo_names st) ∨
   (∃ e, resolve_loop (H := demo_rosidl) pop_first (size demo_universe)
           (initial demo_names) = Aborted e)) ∧
  ((∀ n, n ∈ demo_universe → ∃ r, visit (H := demo_rosidl) n = Ok r) →
   ∃ st, resolve_loop (H := demo_rosidl) pop_first (size demo_universe)
           (initial demo_names) = Finished st ∧
         completes (H := demo_rosidl) demo_names st).
Proof.
  exact (resolver_terminates (H := demo_rosidl) demo_names demo_universe pop_first
           demo_corpus_within demo_names_within pop_first_elem).
Defined.

(** On the concrete corpus the loop ends after eleven iterations, one for
    each name of the universe. *)
Example demo_terminates :
  size demo_universe = 11 ∧
  resolve_loop (H := demo_rosidl) pop_first 11 (initial demo_names)
    = Finished demo_final ∧
  resolve_loop (H := demo_rosidl) pop_first 10 (initial demo_names) = OutOfFuel ∧
  size (visited demo_final) = 11.
Proof. repeat split; vm_compute; reflexivity. Qed.

(** C8 on two runs over the concrete corpus that pop in different orders. *)
Lemma export_deterministic_witness :
  visited demo_final = visited demo_final_last ∧
  (∀ key, dict_get key (specs demo_final) = dict_get key (specs demo_final_last)) ∧
  specs demo_final ≡ₚ specs demo_final_last ∧
  (∀ emit, yaml_dump emit (specs demo_final)
           = yaml_dump emit (specs demo_final_last)).
Proof.
  exact (export_deterministic (H := demo_rosidl) demo_names demo_final
           demo_final_last demo_completes demo_completes_last).
Defined.

(** The two runs insert the keys in different orders. *)
Example demo_insertion_orders :
  dict_keys (specs demo_final)
    = ["autoware_adapi_v1_msgs/srv/SetRoute";
       "autoware_adapi_v1_msgs/msg/RouteOption";
       "autoware_adapi_v1_msgs/msg/RouteSegment";
       "autoware_adapi_v1_msgs/msg/RoutePrimitive";
       "autoware_adapi_v1_msgs/msg/ResponseStatus"] ∧
  dict_keys (specs demo_final_last)
    = ["autoware_adapi_v1_msgs/srv/SetRoute";
       "autoware_adapi_v1_msgs/msg/ResponseStatus";
       "autoware_adapi_v1_msgs/msg/RouteSegment";
       "autoware_adapi_v1_msgs/msg/RoutePrimitive";
       "autoware_adapi_v1_msgs/msg/RouteOption"].
Proof. split; vm_compute; reflexivity. Qed.

(** * Further properties of the code *)

(** ** Type names *)

Lemma strip_array_suffix_split s :
  ∃ rest, s = strip_array_suffix s +:+ rest ∧
          (rest = "" ∨ ∃ tail, rest = String "[" tail).
Proof.
  induction s as [|c s IH].
  - exists "". split; [done | by left].
  - rewrite strip_array_suffix_cons. destruct (Ascii.eqb c "[") eqn:Hc.
    + apply Ascii.eqb_eq in Hc as ->. exists (String "[" s).
      split; [done|]. right. by exists s.
    + destruct IH as (rest & Hs & Hrest). exists rest. split; [|done].
      change (String c (strip_array_suffix s) +:+ rest)
        with (String c (strip_array_suffix s +:+ rest)).
      by rewrite <- Hs.
Qed.

Lemma strip_array_suffix_no_bracket s : has_char "[" (strip_array_suffix s) = false.
Proof.
  apply (str_split_parts "[" s). unfold strip_array_suffix.
  destruct (str_split "[" s) eqn:Hs; [|left].
  by destruct (str_split_nonempty "[" s).
Qed.

(** X1: [strip_array_suffix] returns the part of the name before its first
    [[]: the result has no [[], the name is the result followed by
    nothing or by a rest that starts with [[], a name without [[] is
    returned unchanged, and stripping twice is stripping once. *)
Theorem strip_array_suffix_first_bracket (name : string) :
  has_char "[" (strip_array_suffix name) = false ∧
  (∃ rest, name = strip_array_suffix name +:+ rest ∧
           (rest = "" ∨ ∃ tail, rest = String "[" tail)) ∧
  (has_char "[" name = false → strip_array_suffix name = name) ∧
  strip_array_suffix (strip_array_suffix name) = strip_array_suffix name.
Proof.
  split; [apply strip_array_suffix_no_bracket|].
  split; [apply strip_array_suffix_split|]. split.
  - intros Hno. unfold strip_array_suffix. by rewrite (str_split_no_sep _ _ Hno).
  - apply strip_array_suffix_idempotent.
Qed.

Lemma str_split_head sep s first parts :
  str_split sep s = first :: parts →
  (parts = [] ∧ s = first) ∨
  (∃ rest, s = first +:+ String sep rest ∧ str_split sep rest = parts).
Proof.
  revert first parts. induction s as [|c s IH]; intros first parts; simpl.
  - intros [= <- <-]. by left.
  - destruct (Ascii.eqb c sep) eqn:Hc.
    + apply Ascii.eqb_eq in Hc as ->. intros [= <- <-]. right. by exists s.
    + destruct (str_split sep s) as [|q qs] eqn:Hs;
        [by destruct (str_split_nonempty sep s)|].
      intros [= <- <-].
      destruct (IH q qs eq_refl) as [[-> ->] | (rest & -> & Hrest)].
      * by left.
      * right. by exists rest.
Qed.

(** X2: a name is a documentation type exactly when it is one of the two
    packages or starts with one of them followed by [/]; nothing after the
    first [/] is looked at. *)
Theorem is_documentation_msg_prefix (name : string) :
  is_documentation_msg name = true ↔
  ∃ pkg, pkg ∈ targets ∧ (name = pkg ∨ ∃ rest, name = pkg +:+ "/" +:+ rest).
Proof.
  unfold is_documentation_msg. split.
  - destruct (str_split "/" name) as [|first parts] eqn:Hs; [done|].
    intros Hin%bool_decide_eq_true. exists first. split; [done|].
    destruct (str_split_head _ _ _ _ Hs) as [[_ ->] | (rest & -> & _)].
    + by left.
    + right. by exists rest.
  - intros (pkg & Hpkg & Hname).
    assert (has_char "/" pkg = false) as Hno.
    { unfold targets in Hpkg.
      apply elem_of_cons in Hpkg as [->|Hpkg]; [done|].
      apply elem_of_cons in Hpkg as [->|Hpkg]; [done|].
      by apply elem_of_nil in Hpkg. }
    destruct Hname as [-> | (rest & ->)].
    + rewrite (str_split_no_sep _ _ Hno). by apply bool_decide_eq_true.
    + change (pkg +:+ "/" +:+ rest) with (pkg +:+ String "/" rest).
      rewrite (str_split_app_sep _ _ _ Hno). by apply bool_decide_eq_true.
Qed.

(** X3: the name the resolver queues for a field type, the normalized
    type without its array suffix, either has no [/] or has exactly three
    parts of which the second is [msg]; a field never refers to a service
    file. *)
Theorem field_reference_parts (type : string) :
  let name := strip_array_suffix (normalize_msg_name type) in
  (has_char "/" name = false ∧ str_split "/" name = [name]) ∨
  (∃ pkg msg, str_split "/" name = [pkg; "msg"; msg] ∧
              name = pkg +:+ "/msg/" +:+ msg).
Proof.
  intros name. unfold name.
  destruct (str_split "/" type) as [|p0 [|p1 rest]] eqn:Ht.
  - by destruct (str_split_nonempty "/" type).
  - destruct (str_split_single _ _ _ Ht) as [-> Hno].
    rewrite (normalize_bare type Hno). left.
    pose proof (strip_array_suffix_has_char "/" type Hno) as Hno'.
    split; [done | by apply str_split_no_sep].
  - destruct (normalize_parts type p0 p1 rest Ht) as [-> _].
    assert (has_char "/" p0 = false) as H0
      by (apply (str_split_parts "/" type); rewrite Ht; left).
    assert (has_char "/" p1 = false) as H1
      by (apply (str_split_parts "/" type); rewrite Ht; right; left).
    rewrite strip_array_suffix_app. destruct (has_char "[" p0).
    + left. pose proof (strip_array_suffix_has_char "/" p0 H0) as Hno'.
      split; [done | by apply str_split_no_sep].
    + right. exists p0, (strip_array_suffix p1).
      rewrite (strip_array_suffix_app "/msg/" p1).
      change (has_char "[" "/msg/") with false. cbv iota. split; [|done].
      change (p0 +:+ "/msg/" +:+ strip_array_suffix p1)
        with (p0 +:+ String "/" "msg" +:+ String "/" (strip_array_suffix p1)).
      apply str_split_join3; [done..|]. by apply strip_array_suffix_has_char.
Qed.

(** ** The fields of a schema *)

Lemma field_map_fold_get (l : list Field) (d : dict string) k :
  dict_get k
    (foldl (fun d f => dict_set (field_name f) (normalize_msg_name (field_type f)) d)
           d l)
  = match last (filter (fun f => field_name f = k) l) with
    | Some f => Some (normalize_msg_name (field_type f))
    | None => dict_get k d
    end.
Proof.
  revert d. induction l as [|f l IH]; intros d; simpl; [done|].
  rewrite IH. rewrite filter_cons. destruct (decide (field_name f = k)) as [Hk|Hk].
  - rewrite last_cons. destruct (last (filter _ l)); [done|].
    rewrite <- Hk. apply dict_get_set_eq.
  - destruct (last (filter _ l)); [done|]. by apply dict_get_set_ne.
Qed.

Lemma field_map_fold_NoDup (l : list Field) (d : dict string) :
  NoDup (dict_keys d) →
  NoDup (dict_keys
           (foldl (fun d f => dict_set (field_name f)
                                (normalize_msg_name (field_type f)) d) d l)).
Proof.
  revert d. induction l as [|f l IH]; intros d Hd; simpl; [done|].
  by apply IH, dict_keys_set_NoDup.
Qed.

(** X4: [parse_rosidl_spec] returns a dictionary with one entry for each
    field name, holding the normalized type of the last field of that
    name, and a set of pending names that is the given one together with
    the stripped values of that dictionary that are not visited: no
    pending name is dropped and no visited name is added. *)
Theorem parse_rosidl_spec_result (depends visited : gset string)
    (spec : MessageSpecification) :
  NoDup (dict_keys (parse_rosidl_spec depends visited spec).2) ∧
  (∀ k, dict_get k (parse_rosidl_spec depends visited spec).2
        = ((fun f => normalize_msg_name (field_type f))
             <$> last (filter (fun f => field_name f = k) (fields spec)))) ∧
  (∀ n, n ∈ (parse_rosidl_spec depends visited spec).1 ↔
        n ∈ depends ∨
        ((n ∉ visited) ∧
         ∃ value, value ∈ dict_values (parse_rosidl_spec depends visited spec).2 ∧
                  n = strip_array_suffix value)).
Proof.
  rewrite parse_rosidl_spec_eq. cbn [fst snd]. split; [|split].
  - apply field_map_fold_NoDup, NoDup_nil_2.
  - intros k. unfold field_map. rewrite field_map_fold_get.
    by destruct (last _).
  - intros n. unfold references.
    rewrite elem_of_union, elem_of_difference, elem_of_list_to_set,
      list_elem_of_fmap.
    split.
    + intros [?|[(value & ? & ?) ?]]; [by left|].
      right. split; [done|]. by exists value.
    + intros [?|[? (value & ? & ?)]]; [by left|].
      right. split; [|done]. by exists value.
Qed.

(** ** The resolver, one name at a time *)

Section visits.
Context `{Rosidl}.

(** X5: a call of [parse_rosidl_file] that returns marks the name visited
    and nothing else, keeps every pending name, adds only names that are
    not visited, leaves the entry of every other key as it was and drops
    no key; for a name that is not a documentation type it changes
    neither the pending names nor the table, and it stores an entry
    only under a documentation type. *)
Theorem parse_rosidl_file_frame (st st' : state) (name : string) :
  parse_rosidl_file st name = Ok st' →
  visited st' = {[name]} ∪ visited st ∧
  depends st ⊆ depends st' ∧
  (∀ n, n ∈ depends st' → n ∈ depends st ∨ n ∉ visited st') ∧
  (∀ k, k ≠ name → dict_get k (specs st') = dict_get k (specs st)) ∧
  (∀ k, k ∈ dict_keys (specs st) → k ∈ dict_keys (specs st')) ∧
  (is_documentation_msg name = false →
   depends st' = depends st ∧ specs st' = specs st) ∧
  (name ∈ dict_keys (specs st') →
   is_documentation_msg name = true ∨ name ∈ dict_keys (specs st)).
Proof.
  rewrite parse_rosidl_file_visit.
  destruct (visit name) as [[entry refs]|] eqn:Hvisit; simpl; [|done].
  intros [= <-]. unfold apply_visit. simpl.
  split; [done|]. split; [|split; [|split; [|split; [|split]]]].
  - intros n Hn. apply elem_of_union. by left.
  - intros n [?|[_ ?]%elem_of_difference]%elem_of_union; [by left | by right].
  - intros k Hk. destruct entry; [|done]. by apply dict_get_set_ne.
  - intros k Hk. destruct entry; [|done]. apply dict_keys_set. by right.
  - intros Hdoc. unfold visit in Hvisit. rewrite Hdoc in Hvisit.
    injection Hvisit as <- <-. split; [|done].
    apply set_eq. intros n.
    rewrite elem_of_union, elem_of_difference, elem_of_list_to_set, elem_of_nil.
    tauto.
  - destruct entry as [entry|]; [|by right].
    intros _. left. by eapply visit_documentation.
Qed.

(** X6: a completed run has visited exactly the names that can be come to
    from the seed names through field types of parsed documentation
    types, and the table holds, under each such name that has one, the
    entry read from its schema file, and nothing else. *)
Theorem resolver_visits_reachable (names : gset string) (st : state) :
  completes names st →
  (∀ n, n ∈ visited st ↔ reachable names n) ∧
  (∀ n entry, dict_get n (specs st) = Some entry ↔
              reachable names n ∧ entry_of n = Some entry) ∧
  NoDup (dict_keys (specs st)).
Proof.
  intros Hdone. pose proof (completes_visited _ _ Hdone) as Hvisited.
  split; [done|]. split.
  - intros n entry. rewrite (completes_specs _ _ Hdone), <- Hvisited.
    destruct (decide (n ∈ visited st)); [tauto|]. split; [done | tauto].
  - destruct Hdone as [Hrun _]. apply (inv_nodup names), invariant_rtc, Hrun.
Qed.

(** X7: in the table of a completed run no reference dangles: a
    documentation type that occurs as the type of a field, array suffix
    dropped, is itself a key of the table. *)
Theorem resolver_no_dangling_reference (names : gset string) (st : state) a b :
  completes names st → has_field_of (specs st) a b → b ∈ dict_keys (specs st).
Proof.
  intros Hdone (entry & fields & value & Ha & Hfields & Hvalue & -> & Hdoc).
  by eapply completes_closed.
Qed.

(** X8: whether the loop aborts does not depend on what [set.pop] picks:
    when one run from the seed names completes, the visit of every
    reachable name succeeds, and no run from the same seed names can
    raise, whatever state it is in and whatever name it pops. *)
Theorem resolver_abort_independent (names : gset string) (st : state) :
  completes names st →
  (∀ n, reachable names n → ∃ r, visit n = Ok r) ∧
  (∀ st' n, rtc iteration (initial names) st' → n ∈ depends st' →
     ∃ st'', parse_rosidl_file
               {| depends := depends st' ∖ {[n]}; visited := visited st';
                  specs := specs st' |} n = Ok st'').
Proof.
  intros Hdone.
  assert (∀ n, reachable names n → ∃ r, visit n = Ok r) as Hok.
  { intros n Hn%(completes_visited _ _ Hdone).
    destruct Hdone as [Hrun _].
    by apply (inv_visit names st (invariant_rtc _ _ Hrun)). }
  split; [done|]. intros st' n Hrun Hn.
  destruct (Hok n) as [r Hr].
  { apply (inv_reachable names st' (invariant_rtc _ _ Hrun)), elem_of_union.
    by right. }
  rewrite parse_rosidl_file_visit, Hr. simpl. by eexists.
Qed.
End visits.

(** X5 on the first iteration over the concrete corpus. *)
Lemma parse_rosidl_file_frame_witness :
  visited demo_first = {["autoware_adapi_v1_msgs/srv/SetRoute"]} ∪ visited (initial ∅) ∧
  depends (initial ∅) ⊆ depends demo_first ∧
  (∀ n, n ∈ depends demo_first → n ∈ depends (initial ∅) ∨ n ∉ visited demo_first) ∧
  (∀ k, k ≠ "autoware_adapi_v1_msgs/srv/SetRoute" →
        dict_get k (specs demo_first) = dict_get k (specs (initial ∅))) ∧
  (∀ k, k ∈ dict_keys (specs (initial ∅)) → k ∈ dict_keys (specs demo_first)) ∧
  (is_documentation_msg "autoware_adapi_v1_msgs/srv/SetRoute" = false →
   depends demo_first = depends (initial ∅) ∧ specs demo_first = specs (initial ∅)) ∧
  ("autoware_adapi_v1_msgs/srv/SetRoute" ∈ dict_keys (specs demo_first) →
   is_documentation_msg "autoware_adapi_v1_msgs/srv/SetRoute" = true ∨
   "autoware_adapi_v1_msgs/srv/SetRoute" ∈ dict_keys (specs (initial ∅))).
Proof.
  apply (parse_rosidl_file_frame (H := demo_rosidl)). vm_compute. reflexivity.
Defined.

(** X6 on the run of the concrete corpus. *)
Lemma resolver_visits_reachable_witness :
  (∀ n, n ∈ visited demo_final ↔ reachable (H := demo_rosidl) demo_names n) ∧
  (∀ n entry, dict_get n (specs demo_final) = Some entry ↔
              reachable (H := demo_rosidl) demo_names n ∧
              entry_of (H := demo_rosidl) n = Some entry) ∧
  NoDup (dict_keys (specs demo_final)).
Proof.
  exact (resolver_visits_reachable (H := demo_rosidl) demo_names demo_final
           demo_completes).
Defined.

(** X7 on the run of the concrete corpus. *)
Lemma resolver_no_dangling_reference_witness :
  has_field_of (specs demo_final) "autoware_adapi_v1_msgs/msg/RouteSegment"
    "autoware_adapi_v1_msgs/msg/RoutePrimitive" ∧
  "autoware_adapi_v1_msgs/msg/RoutePrimitive" ∈ dict_keys (specs demo_final).
Proof.
  assert (has_field_of (specs demo_final) "autoware_adapi_v1_msgs/msg/RouteSegment"
            "autoware_adapi_v1_msgs/msg/RoutePrimitive") as Hfield.
  { exists [("msg", [("preferred", "autoware_adapi_v1_msgs/msg/RoutePrimitive");
                     ("alternatives", "autoware_adapi_v1_msgs/msg/RoutePrimitive[]")])],
      [("preferred", "autoware_adapi_v1_msgs/msg/RoutePrimitive");
       ("alternatives", "autoware_adapi_v1_msgs/msg/RoutePrimitive[]")],
      "autoware_adapi_v1_msgs/msg/RoutePrimitive[]".
    split; [|split; [|split; [|split]]].
    - apply dict_get_Some_elem. vm_compute. reflexivity.
    - left.
    - right. left.
    - reflexivity.
    - reflexivity. }
  split; [done|].
  exact (resolver_no_dangling_reference (H := demo_rosidl) demo_names demo_final
           _ _ demo_completes Hfield).
Defined.

(** X8 on the run of the concrete corpus. *)
Lemma resolver_abort_independent_witness :
  (∀ n, reachable (H := demo_rosidl) demo_names n →
        ∃ r, visit (H := demo_rosidl) n = Ok r) ∧
  (∀ st' n, rtc (iteration (H := demo_rosidl)) (initial demo_names) st' →
     n ∈ depends st' →
     ∃ st'', parse_rosidl_file (H := demo_rosidl)
               {| depends := depends st' ∖ {[n]}; visited := visited st';
                  specs := specs st' |} n = Ok st'').
Proof.
  exact (resolver_abort_independent (H := demo_rosidl) demo_names demo_final
           demo_completes).
Defined.

(** ** The dependency graph on any table *)

Lemma set_add_at_missing k x (d : dict (gset string)) :
  k ∉ dict_keys d → set_add_at k x d = Raise (KeyError k).
Proof.
  intros Hk. unfold set_add_at, dict_item.
  destruct (dict_get k d) as [s|] eqn:Hget; [|done].
  exfalso. apply Hk, dict_get_is_Some. by eexists.
Qed.

Lemma record_uses_outcome uses (type_uses type_used : dict (gset string)) :
  (∀ a value, (a, value) ∈ uses → a ∈ dict_keys type_uses) →
  match foldM (fun g use => record_use use.1 g use.2) (type_uses, type_used) uses with
  | Ok _ =>
      ∀ a value, (a, value) ∈ uses →
        is_documentation_msg (strip_array_suffix value) = true →
        strip_array_suffix value ∈ dict_keys type_used
  | Raise e =>
      ∃ a value, (a, value) ∈ uses ∧
        is_documentation_msg (strip_array_suffix value) = true ∧
        (strip_array_suffix value ∉ dict_keys type_used) ∧
        e = KeyError (strip_array_suffix value)
  end.
Proof.
  revert type_uses type_used.
  set (F := fun g (use : string * string) => record_use use.1 g use.2).
  induction uses as [|[u value] uses IH]; intros type_uses type_used Huser.
  - simpl. by intros a value ?%elem_of_nil.
  - assert (∀ a v, (a, v) ∈ uses → (a, v) ∈ (u, value) :: uses) as Htail
      by (intros; by right).
    change (foldM F (type_uses, type_used) ((u, value) :: uses))
      with (g ← record_use u (type_uses, type_used) value; foldM F g uses).
    destruct (is_documentation_msg (strip_array_suffix value)) eqn:Hdoc.
    + rewrite (record_use_documentation _ _ _ Hdoc). cbn [fst snd].
      destruct (set_add_at_ok u (strip_array_suffix value) type_uses)
        as (uses1 & -> & Hkeys1 & _); [by apply (Huser u value); left|].
      simpl.
      destruct (decide (strip_array_suffix value ∈ dict_keys type_used))
        as [Hin|Hnotin].
      * destruct (set_add_at_ok (strip_array_suffix value) u type_used Hin)
          as (used1 & -> & Hkeys2 & _).
        simpl. specialize (IH uses1 used1).
        destruct (foldM F (uses1, used1) uses) as [g|e].
        -- intros a v [[= -> ->]|Hv]%elem_of_cons Hd; [done|].
           rewrite <- Hkeys2. apply (IH ltac:(by intros a' v' ?; rewrite Hkeys1;
             eapply Huser, Htail) a v Hv Hd).
        -- destruct IH as (a & v & Hv & Hd & Hmiss & ->).
           { intros a' v' ?. rewrite Hkeys1. by eapply Huser, Htail. }
           exists a, v. rewrite <- Hkeys2. by split; [right|].
      * rewrite (set_add_at_missing _ _ _ Hnotin). simpl.
        exists u, value. by split; [left|].
    + rewrite (record_use_other _ _ _ Hdoc). simpl.
      specialize (IH type_uses type_used).
      destruct (foldM F (type_uses, type_used) uses) as [g|e].
      * intros a v [[= -> ->]|Hv]%elem_of_cons Hd; [congruence|].
        apply (IH ltac:(by intros a' v' ?; eapply Huser, Htail) a v Hv Hd).
      * destruct IH as (a & v & Hv & Hd & Hmiss & ->).
        { intros a' v' ?. by eapply Huser, Htail. }
        exists a, v. by split; [right|].
Qed.

(** X9: on any table, the dependency computation raises exactly when some
    field refers to a documentation type that is not a key of the table,
    and the exception it raises is the key error of such a type. *)
Theorem dependency_graph_key_error (specs : dict (dict (dict string))) :
  ((∃ g, dependency_graph specs = Ok g) ↔
   ∀ a b, has_field_of specs a b → b ∈ dict_keys specs) ∧
  (∀ e, dependency_graph specs = Raise e →
     ∃ a b, has_field_of specs a b ∧ (b ∉ dict_keys specs) ∧ e = KeyError b).
Proof.
  pose proof (record_uses_outcome (field_uses specs)
                (empty_sets specs) (empty_sets specs)) as Hout.
  rewrite <- dependency_graph_flat, !empty_sets_keys in Hout.
  assert (∀ a value, (a, value) ∈ field_uses specs → a ∈ dict_keys specs) as Huser.
  { intros a value (entry & fields & Ha & _)%field_uses_elem.
    by apply (dict_elem_keys _ entry). }
  specialize (Hout Huser). split; [split|].
  - intros [g Hg]. rewrite Hg in Hout.
    intros a b (entry & fields & value & Ha & Hfields & Hvalue & -> & Hdoc).
    apply (Hout a value); [|done]. apply field_uses_elem. by exists entry, fields.
  - intros Hclosed. destruct (dependency_graph specs) as [g|e]; [by eexists|].
    destruct Hout as (a & value & (entry & fields & ? & ? & ?)%field_uses_elem
                      & Hdoc & Hmiss & _).
    exfalso. apply Hmiss, (Hclosed a). by exists entry, fields, value.
  - intros e He. rewrite He in Hout.
    destruct Hout as (a & value & (entry & fields & ? & ? & ?)%field_uses_elem
                      & Hdoc & Hmiss & ->).
    exists a, (strip_array_suffix value). split; [|done].
    by exists entry, fields, value.
Qed.

(** ** Clean-up of the type pages, its outcome *)

Lemma is_dir_link root name through :
  root !! name = Some (Symlink true through) →
  is_dir root name = true ↔ ∀ via, via ∈ through → is_Some (root !! via).
Proof.
  intros Hname. unfold is_dir. rewrite Hname. simpl. rewrite forallb_forall. split.
  - intros Hall via Hin%list_elem_of_In. specialize (Hall via Hin).
    by apply bool_decide_eq_true in Hall.
  - intros Hall via Hin%list_elem_of_In. apply bool_decide_eq_true. by apply Hall.
Qed.

Lemma refuses_cons_skip root name listing :
  is_dir root name = false →
  refuses root (name :: listing) ↔ refuses root listing.
Proof.
  intros Hdir. split.
  - intros (before & n & after & through & Heq & Hn & Hvia).
    destruct before as [|b before]; simpl in Heq; injection Heq as -> ->.
    + exfalso. assert (is_dir root n = true); [|congruence].
      apply (is_dir_link _ _ through); [done|]. intros via Hin. by apply Hvia.
    + exists before, n, after, through. split; [done|]. split; [done|].
      intros via Hin. destruct (Hvia via Hin) as [Hsome Hnot]. split; [done|].
      intros [Hb Hd]. apply Hnot. split; [by right | done].
  - intros (before & n & after & through & -> & Hn & Hvia).
    exists (name :: before), n, after, through. split; [done|]. split; [done|].
    intros via Hin. destruct (Hvia via Hin) as [Hsome Hnot]. split; [done|].
    intros [[->|Hb]%elem_of_cons [children Hd]].
    + unfold is_dir in Hdir. by rewrite Hd in Hdir.
    + apply Hnot. split; [done | by exists children].
Qed.

Lemma refuses_cons_remove root name children listing :
  root !! name = Some (Directory children) →
  refuses root (name :: listing) ↔ refuses (delete name root) listing.
Proof.
  intros Hname. split.
  - intros (before & n & after & through & Heq & Hn & Hvia).
    destruct before as [|b before]; simpl in Heq.
    { injection Heq as <- <-. congruence. }
    injection Heq as <- ->.
    assert (name ≠ n) as Hne by congruence.
    exists before, n, after, through. split; [done|].
    split; [by rewrite lookup_delete_ne|].
    intros via Hin. destruct (Hvia via Hin) as [Hsome Hnot].
    assert (name ≠ via) as Hnev.
    { intros <-. apply Hnot. split; [left | by exists children]. }
    rewrite lookup_delete_ne by done. split; [done|].
    intros [Hb Hd]. apply Hnot. split; [by right | done].
  - intros (before & n & after & through & -> & Hn & Hvia).
    apply lookup_delete_Some in Hn as [Hne Hn].
    exists (name :: before), n, after, through. split; [done|]. split; [done|].
    intros via Hin. destruct (Hvia via Hin) as [Hsome Hnot].
    apply lookup_delete_is_Some in Hsome as [Hnev Hsome]. split; [done|].
    intros [[->|Hb]%elem_of_cons [children' Hd]]; [done|].
    apply Hnot. split; [done|]. exists children'. by rewrite lookup_delete_ne.
Qed.

Lemma clean_up_loop_raises listing (root : gmap string entry) :
  ((clean_up_loop listing root).2 = Ok () ∨
   (clean_up_loop listing root).2 = Raise OSError) ∧
  ((clean_up_loop listing root).2 = Raise OSError ↔ refuses root listing).
Proof.
  revert root. induction listing as [|name listing IH]; intros root.
  { simpl. split; [by left|]. split; [done|].
    intros (before & n & after & through & Heq & _). by destruct before. }
  simpl. destruct (is_dir root name) eqn:Hdir.
  - unfold rmtree.
    destruct (root !! name) as [[content|children|to_dir through]|] eqn:Hname.
    + unfold is_dir in Hdir. by rewrite Hname in Hdir.
    + destruct (IH (delete name root)) as [Hcases Hiff]. split; [done|].
      rewrite Hiff. symmetry. by eapply refuses_cons_remove.
    + simpl. split; [by right|]. split; [|done]. intros _.
      assert (to_dir = true) as ->.
      { unfold is_dir in Hdir. rewrite Hname in Hdir. by destruct to_dir. }
      exists [], name, listing, through. split; [done|]. split; [done|].
      intros via Hin. split.
      * by apply (is_dir_link root name through).
      * by intros [?%elem_of_nil _].
    + unfold is_dir in Hdir. by rewrite Hname in Hdir.
  - destruct (IH root) as [Hcases Hiff]. split; [done|].
    rewrite Hiff. symmetry. by apply refuses_cons_skip.
Qed.

Lemma clean_up_loop_fixed listing (root : gmap string entry) :
  (∀ name, is_dir root name = false) → clean_up_loop listing root = (root, Ok ()).
Proof.
  intros Hno. induction listing as [|name listing IH]; simpl; [done|].
  by rewrite Hno.
Qed.

(** X10: in whatever order the names of the root are listed, the clean-up
    ends well or raises the error of [rmtree]; it raises exactly when it
    comes to a link that still leads to a directory, which a link through
    a directory of the root does only as long as that directory has not
    been listed; when it does not raise, what is left is the root without
    its directories, and cleaning up again, in any order, changes nothing
    and does not raise. *)
Theorem clean_up_outcome (root : gmap string entry) (listing : list string) :
  iterdir root listing →
  ((clean_up_loop listing root).2 = Ok () ∨
   (clean_up_loop listing root).2 = Raise OSError) ∧
  ((clean_up_loop listing root).2 = Raise OSError ↔ refuses root listing) ∧
  ((clean_up_loop listing root).2 = Ok () →
   (clean_up_loop listing root).1
     = filter (fun item => is_directory item.2 = false) root ∧
   ∀ listing',
     clean_up_loop listing' (clean_up_loop listing root).1
     = ((clean_up_loop listing root).1, Ok ())).
Proof.
  intros Hlisting.
  destruct (clean_up_loop_raises listing root) as [Hcases Hraises].
  split; [done|]. split; [done|]. intros Hok.
  destruct (clean_up_loop_frame listing root) as [Hsub Hrem].
  assert (∀ name, is_Some (root !! name) → name ∈ listing) as Hlisted.
  { intros name. by apply iterdir_elem. }
  assert ((clean_up_loop listing root).1
          = filter (fun item => is_directory item.2 = false) root) as Hfilter.
  { apply map_eq. intros name. apply option_eq. intros e.
    rewrite map_lookup_filter_Some. simpl. split.
    - intros Hafter. pose proof (lookup_weaken _ _ _ _ Hafter Hsub) as Hroot.
      split; [done|]. destruct e as [content|children|to_dir through]; try done.
      rewrite (clean_up_loop_removes listing root name children) in Hafter;
        [done | done | | done].
      apply Hlisted. by eexists.
    - intros [Hroot Hnd].
      destruct ((clean_up_loop listing root).1 !! name) as [e'|] eqn:Hafter.
      + pose proof (lookup_weaken _ _ _ _ Hafter Hsub). congruence.
      + destruct (Hrem name e Hroot Hafter) as [children ->]. done. }
  split; [done|]. intros listing'. apply clean_up_loop_fixed. intros name.
  destruct (is_dir (clean_up_loop listing root).1 name) eqn:Hdir; [|done].
  exfalso. unfold is_dir in Hdir.
  destruct ((clean_up_loop listing root).1 !! name)
    as [[content|children|to_dir through]|] eqn:Hafter; try done.
  - rewrite Hfilter in Hafter.
    by apply map_lookup_filter_Some in Hafter as [_ ?].
  - assert (to_dir = true) as -> by (by destruct to_dir).
    pose proof (lookup_weaken _ _ _ _ Hafter Hsub) as Hroot.
    assert (∀ via, via ∈ through →
              is_Some ((clean_up_loop listing root).1 !! via)) as Hall.
    { apply (is_dir_link _ name through Hafter). unfold is_dir. by rewrite Hafter. }
    assert (name ∈ listing) as (before & after & Hsplit)%list_elem_of_split.
    { apply Hlisted. by eexists. }
    assert (refuses root listing) as Hrefuses.
    { exists before, name, after, through. split; [done|]. split; [done|].
      intros via Hin. destruct (Hall via Hin) as [e He].
      split; [exists e; by eapply lookup_weaken|].
      intros [Hb [children Hd]].
      rewrite (clean_up_loop_removes listing root via children) in He;
        [done | done | | done].
      rewrite Hsplit. apply elem_of_app. by left. }
    apply Hraises in Hrefuses. congruence.
Qed.

(** X10 on the root with a link to its directory, the directory listed
    first. *)
Lemma clean_up_outcome_witness :
  (clean_up_loop demo_listing demo_root).2 = Ok () ∧
  (clean_up_loop demo_listing demo_root).1
    = filter (fun item => is_directory item.2 = false) demo_root.
Proof.
  destruct (clean_up_outcome demo_root demo_listing demo_iterdir)
    as (_ & _ & Hleft).
  split; [reflexivity|]. apply Hleft. reflexivity.
Defined.

(** ** The table formatter, its rows *)

Lemma str_join_length sep (l : list string) :
  py_len (str_join sep l)
  = sum_list (py_len <$> l) + py_len sep * pred (length l).
Proof.
  induction l as [|p [|q l] IH]; simpl.
  - lia.
  - lia.
  - rewrite !py_len_app. simpl in IH. rewrite IH. lia.
Qed.

Lemma zip_with_pad_lengths widths (line : list string) :
  length widths ≤ length line →
  (∀ j w cell, widths !! j = Some w → line !! j = Some cell →
               py_len cell ≤ w) →
  py_len <$> zip_with pad widths line = widths.
Proof.
  revert line. induction widths as [|w widths IH]; intros line Hlen Hcells.
  - by destruct line.
  - destruct line as [|cell line]; simpl in Hlen; [lia|]. simpl.
    rewrite pad_length. f_equal.
    + specialize (Hcells 0 w cell eq_refl eq_refl). lia.
    + apply IH; [lia|]. intros j w' cell' Hw Hcell.
      by apply (Hcells (S j)).
Qed.

Lemma row_text_length widths (line : list string) :
  length widths ≤ length line →
  (∀ j w cell, widths !! j = Some w → line !! j = Some cell →
               py_len cell ≤ w) →
  py_len (row_text widths line)
  = 4 + sum_list widths + 3 * pred (length widths).
Proof.
  intros Hlen Hcells. unfold row_text.
  rewrite !py_len_app, str_join_length.
  rewrite (zip_with_pad_lengths widths line Hlen Hcells).
  rewrite length_zip_with. simpl. lia.
Qed.

Lemma tabulate_rows data header :
  tabulate data header
  = Ok (str_join newline
          (row_text (column_widths data header)
             <$> header :: (repeat_char "-" <$> column_widths data header) :: data)).
Proof.
  unfold tabulate.
  rewrite (mapM_ok _ (row_text (column_widths data header))); [done|].
  intros line Hin. apply str_format_row.
  destruct (column_widths_columns data header) as [Hcols _].
  apply elem_of_cons in Hin as [->|Hin]; [apply Hcols; left|].
  apply elem_of_cons in Hin as [->|Hin]; [|apply Hcols; by right].
  by rewrite length_fmap.
Qed.

(** X11: [tabulate] never raises; the table has the header row, the
    separator row and one row for each data row, and all these rows have
    the same length in characters, four more than the widths and the
    separators between the columns. *)
Theorem tabulate_aligned (data : list (list string)) (header : list string) :
  ∃ rows,
    tabulate data header = Ok (str_join newline rows) ∧
    length rows = 2 + length data ∧
    ∀ row, row ∈ rows →
      py_len row
      = 4 + sum_list (column_widths data header)
        + 3 * pred (length (column_widths data header)).
Proof.
  set (widths := column_widths data header).
  exists (row_text widths <$> header :: (repeat_char "-" <$> widths) :: data).
  split; [apply tabulate_rows|]. split; [by rewrite length_fmap|].
  intros row (line & -> & Hin)%list_elem_of_fmap.
  destruct (column_widths_columns data header) as [Hcols _].
  apply row_text_length.
  - apply elem_of_cons in Hin as [->|Hin]; [apply Hcols; left|].
    apply elem_of_cons in Hin as [->|Hin]; [|apply Hcols; by right].
    by rewrite length_fmap.
  - intros j w cell Hw Hcell.
    destruct (column_widths_max data header j w Hw) as [Hall _].
    apply elem_of_cons in Hin as [->|Hin].
    { destruct (Hall header) as (cell' & Hcell' & Hle); [left|]. congruence. }
    apply elem_of_cons in Hin as [->|Hin].
    { rewrite list_lookup_fmap in Hcell. fold widths in Hw. rewrite Hw in Hcell.
      injection Hcell as <-. by rewrite repeat_char_length by done. }
    destruct (Hall line) as (cell' & Hcell' & Hle); [by right|]. congruence.
Qed.

(** ** The index of the types *)

Lemma types_index_Permutation (specs1 specs2 : dict (dict (dict string))) :
  dict_keys specs1 ≡ₚ dict_keys specs2 → types_index specs1 = types_index specs2.
Proof.
  intros Hperm. unfold types_index. f_equal.
  apply (Sorted_unique String.le).
  - apply Sorted_merge_sort, _.
  - apply Sorted_merge_sort, _.
  - by rewrite !merge_sort_Permutation.
Qed.

Section index.
Context `{Rosidl}.

(** X12: the page that lists the types does not depend on the order of
    the visits: two completed runs from the same seed names give the same
    text, with the keys of the table in increasing order, each once. *)
Theorem types_index_deterministic (names : gset string) (st1 st2 : state) :
  completes names st1 → completes names st2 →
  types_index (specs st1) = types_index (specs st2) ∧
  Sorted String.le (merge_sort String.le (dict_keys (specs st1))) ∧
  NoDup (merge_sort String.le (dict_keys (specs st1))) ∧
  (∀ key, key ∈ merge_sort String.le (dict_keys (specs st1)) ↔
          key ∈ dict_keys (specs st2)).
Proof.
  intros Hdone1 Hdone2.
  assert (NoDup (dict_keys (specs st1))) as Hnodup1
    by (destruct Hdone1 as [Hrun _]; apply (inv_nodup names), invariant_rtc, Hrun).
  assert (NoDup (dict_keys (specs st2))) as Hnodup2
    by (destruct Hdone2 as [Hrun _]; apply (inv_nodup names), invariant_rtc, Hrun).
  assert (∀ key, dict_get key (specs st1) = dict_get key (specs st2)) as Hget.
  { intros key.
    rewrite (completes_specs _ _ Hdone1), (completes_specs _ _ Hdone2).
    assert (key ∈ visited st1 ↔ key ∈ visited st2) as Hvis
      by (by rewrite (completes_visited _ _ Hdone1), (completes_visited _ _ Hdone2)).
    destruct (decide (key ∈ visited st1)), (decide (key ∈ visited st2)); tauto. }
  assert (dict_keys (specs st1) ≡ₚ dict_keys (specs st2)) as Hperm.
  { unfold dict_keys. apply fmap_Permutation. by apply dict_eq_Permutation. }
  split; [by apply types_index_Permutation|]. split; [apply Sorted_merge_sort, _|].
  split.
  - by rewrite merge_sort_Permutation.
  - intros key. by rewrite merge_sort_Permutation, Hperm.
Qed.
End index.

(** X12 on the two runs over the concrete corpus. *)
Lemma types_index_deterministic_witness :
  types_index (specs demo_final) = types_index (specs demo_final_last) ∧
  Sorted String.le (merge_sort String.le (dict_keys (specs demo_final))) ∧
  NoDup (merge_sort String.le (dict_keys (specs demo_final))) ∧
  (∀ key, key ∈ merge_sort String.le (dict_keys (specs demo_final)) ↔
          key ∈ dict_keys (specs demo_final_last)).
Proof.
  exact (types_index_deterministic (H := demo_rosidl) demo_names demo_final
           demo_final_last demo_completes demo_completes_last).
Defined.

(** ** The front matter of a type page *)

Lemma sorted_set_spec (s : gset string) :
  Sorted String.le (sorted_set s) ∧ NoDup (sorted_set s) ∧
  (∀ x, x ∈ sorted_set s ↔ x ∈ s) ∧
  (sorted_set s = [] ↔ s = ∅).
Proof.
  unfold sorted_set. split; [apply Sorted_merge_sort, _|]. split; [|split].
  - rewrite merge_sort_Permutation. apply NoDup_elements.
  - intros x. by rewrite merge_sort_Permutation, elem_of_elements.
  - split.
    + intros Hnil. apply leibniz_equiv, elements_empty_inv.
      apply Permutation_nil_r. by rewrite <- Hnil, merge_sort_Permutation.
    + intros ->. apply Permutation_nil_r.
      by rewrite merge_sort_Permutation, elements_empty.
Qed.

Lemma dependency_graph_sets specs type_uses type_used :
  dependency_graph specs = Ok (type_uses, type_used) →
  dict_keys type_uses = dict_keys specs ∧
  dict_keys type_used = dict_keys specs ∧
  (∀ a b, b ∈ set_at type_uses a ↔ has_field_of specs a b) ∧
  (∀ a b, a ∈ set_at type_used b ↔ has_field_of specs a b).
Proof.
  intros Hgraph.
  assert (∀ a value, (a, value) ∈ field_uses specs → a ∈ dict_keys specs) as Huser.
  { intros a value (entry & fields & Ha & _)%field_uses_elem.
    by apply (dict_elem_keys _ entry). }
  pose proof (record_uses_outcome (field_uses specs)
                (empty_sets specs) (empty_sets specs)) as Hout.
  rewrite <- dependency_graph_flat, Hgraph, !empty_sets_keys in Hout.
  specialize (Hout Huser).
  destruct (record_uses_ok (field_uses specs) (empty_sets specs) (empty_sets specs))
    as (uses' & used' & Hfold & Hkeys1 & Hkeys2 & Huses & Hused).
  { by rewrite empty_sets_keys. }
  { by rewrite empty_sets_keys. }
  rewrite <- dependency_graph_flat, Hgraph in Hfold. injection Hfold as <- <-.
  rewrite empty_sets_keys in Hkeys1, Hkeys2.
  assert (∀ a b,
            (∃ value, (a, value) ∈ field_uses specs ∧
                      b = strip_array_suffix value ∧
                      is_documentation_msg b = true)
            ↔ has_field_of specs a b) as Hfield.
  { intros a b. unfold has_field_of. split.
    - intros (value & (entry & fields & ? & ? & ?)%field_uses_elem & ? & ?).
      by exists entry, fields, value.
    - intros (entry & fields & value & ? & ? & ? & ? & ?).
      exists value. split; [|done]. apply field_uses_elem.
      by exists entry, fields. }
  split; [done|]. split; [done|]. split.
  - intros a b. rewrite Huses, empty_sets_at, elem_of_empty, Hfield. tauto.
  - intros a b. rewrite Hused, empty_sets_at, elem_of_empty, Hfield. tauto.
Qed.

(** X13: for a key of a table on which the dependency computation
    returned, the data of the type page are the title, when the name is
    not empty, the list [uses] of the documentation types its fields
    refer to and the list [used] of the types with a field of this type;
    both lists are in increasing order without repetition, and a list
    that would be empty is left out. *)
Theorem type_page_data_lists specs type_uses type_used (name : string) :
  dependency_graph specs = Ok (type_uses, type_used) →
  name ∈ dict_keys specs →
  ∃ data uses used,
    type_page_data name type_uses type_used = Ok data ∧
    Sorted String.le uses ∧ NoDup uses ∧
    (∀ b, b ∈ uses ↔ has_field_of specs name b) ∧
    Sorted String.le used ∧ NoDup used ∧
    (∀ a, a ∈ used ↔ has_field_of specs a name) ∧
    dict_get "title" data = (if decide (name = "") then None else Some (FrontStr name)) ∧
    dict_get "uses" data = (if decide (uses = []) then None else Some (FrontList uses)) ∧
    dict_get "used" data = (if decide (used = []) then None else Some (FrontList used)).
Proof.
  intros Hgraph Hname.
  destruct (dependency_graph_sets _ _ _ Hgraph) as (Hkeys1 & Hkeys2 & Huses & Hused).
  pose proof Hname as Hname1. rewrite <- Hkeys1 in Hname1.
  pose proof Hname as Hname2. rewrite <- Hkeys2 in Hname2.
  apply dict_get_is_Some in Hname1 as [s1 Hs1].
  apply dict_get_is_Some in Hname2 as [s2 Hs2].
  destruct (sorted_set_spec s1) as (Hsorted1 & Hnodup1 & Hin1 & _).
  destruct (sorted_set_spec s2) as (Hsorted2 & Hnodup2 & Hin2 & _).
  eexists _, (sorted_set s1), (sorted_set s2).
  split.
  { unfold type_page_data, dict_item. rewrite Hs1, Hs2. simpl. reflexivity. }
  split; [done|]. split; [done|]. split.
  { intros b. rewrite Hin1, <- Huses. unfold set_at. by rewrite Hs1. }
  split; [done|]. split; [done|]. split.
  { intros a. rewrite Hin2, <- Hused. unfold set_at. by rewrite Hs2. }
  rewrite !filter_cons, filter_nil. simpl.
  destruct (decide (name = "")) as [->|Hne];
    destruct (decide (sorted_set s1 = [])) as [->|Hne1];
    destruct (decide (sorted_set s2 = [])) as [->|Hne2];
    simpl;
    rewrite ?(bool_decide_eq_false_2 (name = "")) by done;
    rewrite ?(bool_decide_eq_false_2 (sorted_set s1 = [])) by done;
    rewrite ?(bool_decide_eq_false_2 (sorted_set s2 = [])) by done;
    simpl; done.
Qed.

(** X13 on a type of the concrete corpus. *)
Lemma type_page_data_lists_witness :
  ∃ data uses used,
    type_page_data "autoware_adapi_v1_msgs/msg/RouteSegment"
      demo_graph.1 demo_graph.2 = Ok data ∧
    Sorted String.le uses ∧ NoDup uses ∧
    (∀ b, b ∈ uses ↔
          has_field_of (specs demo_final) "autoware_adapi_v1_msgs/msg/RouteSegment" b) ∧
    Sorted String.le used ∧ NoDup used ∧
    (∀ a, a ∈ used ↔
          has_field_of (specs demo_final) a "autoware_adapi_v1_msgs/msg/RouteSegment") ∧
    dict_get "title" data
      = (if decide ("autoware_adapi_v1_msgs/msg/RouteSegment" = "") then None
         else Some (FrontStr "autoware_adapi_v1_msgs/msg/RouteSegment")) ∧
    dict_get "uses" data = (if decide (uses = []) then None else Some (FrontList uses)) ∧
    dict_get "used" data = (if decide (used = []) then None else Some (FrontList used)).
Proof.
  apply (type_page_data_lists (specs demo_final) demo_graph.1 demo_graph.2).
  - vm_compute. reflexivity.
  - apply dict_get_is_Some. vm_compute. by eexists.
Defined.

(** The data of that page: the title, one type used and one user. *)
Example demo_type_page :
  type_page_data "autoware_adapi_v1_msgs/msg/RouteSegment" demo_graph.1 demo_graph.2
  = Ok [("title", FrontStr "autoware_adapi_v1_msgs/msg/RouteSegment");
        ("uses", FrontList ["autoware_adapi_v1_msgs/msg/RoutePrimitive"]);
        ("used", FrontList ["autoware_adapi_v1_msgs/srv/SetRoute"])] ∧
  type_page_data "autoware_adapi_v1_msgs/msg/RouteOption" demo_graph.1 demo_graph.2
  = Ok [("title", FrontStr "autoware_adapi_v1_msgs/msg/RouteOption");
        ("used", FrontList ["autoware_adapi_v1_msgs/srv/SetRoute"])].
Proof. split; vm_compute; reflexivity. Qed.

(** ** The pages and the list of the API *)

Lemma py_in_truthy needle data :
  needle ≠ "" → py_in needle data = Ok true → truthy data = true.
Proof.
  intros Hneedle. destruct data as [| | |s|items|items]; simpl; try done.
  - intros [= Hsub]. destruct s as [|c s]; [|done].
    exfalso. by destruct needle.
  - intros [= Hex]. by destruct items.
  - intros [= Hex]. by destruct items.
Qed.

Section load.
Context `{YamlLoader}.

Lemma load_markdown_metadata_truthy lines path page :
  load_markdown_metadata lines path = Ok (Some page) →
  py_in "status" page = Ok true ∧ truthy page = true.
Proof.
  unfold load_markdown_metadata. destruct (_ && _); [|done]. simpl.
  destruct (index_from "---" 1 lines) as [stop|]; simpl; [|done].
  destruct (safe_load _) as [data|]; simpl; [|done].
  unfold test_markdown_metadata.
  destruct (py_in "status" data) as [[|]|] eqn:Hin; simpl; [|done..].
  intros [= <-]. split; [done|]. by apply (py_in_truthy "status").
Qed.

Lemma mapM_Ok_inv {A B : Type} (f : A → result B) (l : list A) (bs : list B) :
  mapM f l = Ok bs ↔ Forall2 (fun a b => f a = Ok b) l bs.
Proof.
  revert bs. induction l as [|a l IH]; intros bs; simpl.
  - split; [intros [= <-]; constructor | by intros ->%Forall2_nil_inv_l].
  - split.
    + destruct (f a) as [b|] eqn:Hb; simpl; [|done].
      destruct (mapM f l) as [bs'|] eqn:Hbs; simpl; [|done].
      intros [= <-]. constructor; [done | by apply IH].
    + intros (b & bs' & Hb & Hbs & ->)%Forall2_cons_inv_l.
      rewrite Hb. simpl. apply IH in Hbs. by rewrite Hbs.
Qed.

Lemma mapM_Raise_inv {A B : Type} (f : A → result B) (l : list A) e :
  mapM f l = Raise e ↔
  ∃ before a after bs, l = before ++ a :: after ∧
    Forall2 (fun a b => f a = Ok b) before bs ∧ f a = Raise e.
Proof.
  split.
  - induction l as [|a l IH]; simpl; [done|].
    destruct (f a) as [b|e'] eqn:Hb; simpl.
    + destruct (mapM f l) as [bs'|e'] eqn:Hbs; simpl; [done|].
      intros [= ->]. destruct (IH eq_refl) as (before & a' & after & bs & -> & Hall & Ha).
      exists (a :: before), a', after, (b :: bs).
      split; [done|]. split; [by constructor | done].
    + intros [= ->]. exists [], a, l, []. split; [done|]. by split; [constructor|].
  - intros (before & a & after & bs & -> & Hall & Ha).
    induction Hall as [|a' b' before' bs' Hb _ IH]; simpl.
    + by rewrite Ha.
    + rewrite Hb. simpl. by rewrite IH.
Qed.

(** X14: the pages of [main] are the records of the files that the loader
    does not skip, in the order of the files: no record is lost to the
    filter on truth values, since a record with a status is never empty.
    When the loader raises on a file, the pages are not built and the
    exception is that of the first such file. *)
Theorem load_pages_records (files : list (string * list string)) :
  (∀ pages, load_pages files = Ok pages ↔
     ∃ loaded,
       Forall2 (fun file page => load_markdown_metadata file.2 file.1 = Ok page)
               files loaded ∧
       pages = omap id loaded) ∧
  (∀ e, load_pages files = Raise e ↔
     ∃ before file after loaded,
       files = before ++ file :: after ∧
       Forall2 (fun file page => load_markdown_metadata file.2 file.1 = Ok page)
               before loaded ∧
       load_markdown_metadata file.2 file.1 = Raise e).
Proof.
  assert (∀ loaded,
            Forall2 (fun file page => load_markdown_metadata file.2 file.1 = Ok page)
                    files loaded →
            keep_truthy loaded = omap id loaded) as Hkeep.
  { intros loaded Hall. induction Hall as [|file page files' loaded' Hload _ IH];
      [done|].
    unfold keep_truthy in *. csimpl. rewrite IH. destruct page as [data|]; [|done].
    by destruct (load_markdown_metadata_truthy _ _ _ Hload) as [_ ->]. }
  unfold load_pages. split.
  - intros pages. split.
    + destruct (mapM _ files) as [loaded|] eqn:Hmap; simpl; [|done].
      apply mapM_Ok_inv in Hmap. intros [= <-]. exists loaded.
      split; [done | by apply Hkeep].
    + intros (loaded & Hall & ->). pose proof Hall as Hmap.
      apply mapM_Ok_inv in Hmap. rewrite Hmap. simpl. f_equal. by apply Hkeep.
  - intros e. rewrite <- mapM_Raise_inv.
    destruct (mapM _ files) as [loaded|e']; simpl.
    + split; intros [=].
    + split; by intros [= ->].
Qed.

(** X15: a file that opens with the marker is read up to the first later
    marker: when the lines between the two hold no marker, loading parses
    exactly these lines and checks the result, whatever follows the
    second marker; the file that consists of the two markers alone is
    skipped. *)
Theorem load_markdown_metadata_block_only (block body : list string) (path : string) :
  "---" ∉ block →
  load_markdown_metadata ("---" :: block ++ "---" :: body) path
  = if decide (block = [] ∧ body = []) then Ok None
    else (data ← safe_load (str_join newline block);
          page ← test_markdown_metadata data path;
          Ok (Some page)).
Proof.
  intros Hblock.
  assert (list_index "---" (block ++ "---" :: body) = Some (length block)) as Hindex.
  { induction block as [|line block IH].
    - done.
    - change (list_index "---" ((line :: block) ++ "---" :: body))
        with (if decide (line = "---") then Some 0
              else S <$> list_index "---" (block ++ "---" :: body)).
      destruct (decide (line = "---")) as [->|_]; [exfalso; apply Hblock; left|].
      rewrite IH; [done|]. intros ?. apply Hblock. by right. }
  destruct (decide (block = [] ∧ body = [])) as [[-> ->]|Hne]; [done|].
  rewrite (load_markdown_metadata_block _ path (S (length block))).
  - unfold slice.
    change (drop 1 ("---" :: block ++ "---" :: body)) with (block ++ "---" :: body).
    replace (S (length block) - 1) with (length block) by lia.
    by rewrite take_app_length.
  - simpl. rewrite length_app. simpl.
    destruct block, body; simpl; try lia. by destruct Hne.
  - done.
  - unfold index_from.
    change (drop 1 ("---" :: block ++ "---" :: body)) with (block ++ "---" :: body).
    by rewrite Hindex.
Qed.
End load.

(** X15 on a file with a rule in its body. *)
Lemma load_markdown_metadata_block_only_witness :
  load_markdown_metadata (H := flat_loader)
    ("---" :: ["title: /api/localization"; "status: draft"] ++ "---" :: ["---"; "text"])
    "list/api/localization.md"
  = if decide (["title: /api/localization"; "status: draft"] = [] ∧
               ["---"; "text"] = [])
    then Ok None
    else (data ← safe_load (YamlLoader := flat_loader)
                    (str_join newline ["title: /api/localization"; "status: draft"]);
          page ← test_markdown_metadata data "list/api/localization.md";
          Ok (Some page)).
Proof.
  apply (load_markdown_metadata_block_only (H := flat_loader)).
  intros Hin. repeat (apply elem_of_cons in Hin as [?|Hin]; [done|]).
  by apply elem_of_nil in Hin.
Defined.

(** The pages of the three concrete files: the file without front matter
    is dropped, the two records are kept in the order of the files. *)
Example demo_pages :
  load_pages (H := flat_loader) demo_files
  = Ok [YMap [(YStr "title", YStr "/api/routing"); (YStr "status", YStr "released")];
        YMap [(YStr "title", YStr "/api/localization"); (YStr "status", YStr "draft")]].
Proof. reflexivity. Qed.

(** ** The list of the API *)

Section sorted_by_key.
Context {V : Type}.
Implicit Types (x : string * V) (l : list (string * V)).

Lemma insert_by_key_Permutation x l : insert_by_key x l ≡ₚ x :: l.
Proof.
  induction l as [|y l IH]; simpl; [done|].
  destruct (decide (String.le x.1 y.1)); [done|].
  by rewrite IH, Permutation_swap.
Qed.

Lemma sorted_by_key_Permutation l : sorted_by_key l ≡ₚ l.
Proof.
  induction l as [|x l IH]; simpl; [done|].
  by rewrite insert_by_key_Permutation, IH.
Qed.

Lemma insert_by_key_Sorted x l :
  Sorted key_le l → Sorted key_le (insert_by_key x l).
Proof.
  induction 1 as [|y l Hsorted IH Hhd]; simpl.
  - by repeat constructor.
  - destruct (decide (String.le x.1 y.1)) as [Hle|Hnle].
    + by repeat constructor.
    + constructor; [done|].
      assert (key_le y x) as Hyx.
      { unfold key_le. by destruct (total String.le x.1 y.1). }
      destruct Hhd as [|z l Hyz]; simpl.
      * by constructor.
      * destruct (decide (String.le x.1 z.1)); by constructor.
Qed.

Lemma sorted_by_key_Sorted l : Sorted key_le (sorted_by_key l).
Proof.
  induction l as [|x l IH]; simpl; [constructor | by apply insert_by_key_Sorted].
Qed.

Lemma insert_by_key_filter x l (title : string) :
  filter (fun p => p.1 = title) (insert_by_key x l)
  = filter (fun p => p.1 = title) (x :: l).
Proof.
  induction l as [|y l IH]; simpl; [done|].
  destruct (decide (String.le x.1 y.1)) as [Hle|Hnle]; [done|].
  rewrite (filter_cons _ y), IH, !filter_cons.
  destruct (decide (y.1 = title)) as [Hy|Hy]; [|done].
  destruct (decide (x.1 = title)) as [Hx|Hx]; [|done].
  exfalso. apply Hnle. rewrite Hx, <- Hy. done.
Qed.

Lemma sorted_by_key_filter l (title : string) :
  filter (fun p => p.1 = title) (sorted_by_key l) = filter (fun p => p.1 = title) l.
Proof.
  induction l as [|x l IH]; simpl; [done|].
  by rewrite insert_by_key_filter, !filter_cons, IH.
Qed.
End sorted_by_key.

(** X16: for pages with string titles and statuses, the list of the API
    has one row for each page, in increasing order of the titles, pages
    of equal title in the order of the pages; every row has its link and
    its status, so the table keeps both columns, and the text of the
    page is the heading followed by that table. *)
Theorem api_list_page_rows (pages : list (string * string)) :
  sorted_by_key pages ≡ₚ pages ∧
  Sorted key_le (sorted_by_key pages) ∧
  (∀ title, filter (fun page => page.1 = title) (sorted_by_key pages)
            = filter (fun page => page.1 = title) pages) ∧
  api_rows pages
    = (fun page => ["[" +:+ page.1 +:+ "](." +:+ page.1 +:+ ".md)"; page.2])
        <$> sorted_by_key pages ∧
  length (column_widths (api_rows pages) ["API"; "Release"]) = 2 ∧
  api_list_page pages
    = Ok ("# List of Autoware AD API" +:+ newline +:+ newline +:+
          str_join newline
            (row_text (column_widths (api_rows pages) ["API"; "Release"])
               <$> ["API"; "Release"]
                   :: (repeat_char "-"
                         <$> column_widths (api_rows pages) ["API"; "Release"])
                   :: api_rows pages)
          +:+ newline).
Proof.
  split; [apply sorted_by_key_Permutation|].
  split; [apply sorted_by_key_Sorted|].
  split; [intros title; apply sorted_by_key_filter|].
  split; [done|]. split.
  - destruct (column_widths_columns (api_rows pages) ["API"; "Release"])
      as [_ (line & Hin & ->)].
    apply elem_of_cons in Hin as [->|Hin]; [done|].
    unfold api_rows in Hin. by apply list_elem_of_fmap in Hin as (page & -> & _).
  - unfold api_list_page. by rewrite tabulate_rows.
Qed.

(** The list of the two pages of the concrete files. *)
Example demo_api_list :
  api_list_page [("/api/routing", "released"); ("/api/localization", "draft")]
  = Ok ("# List of Autoware AD API" +:+ newline +:+ newline +:+
        "| API                                        | Release  |" +:+ newline +:+
        "| ------------------------------------------ | -------- |" +:+ newline +:+
        "| [/api/localization](./api/localization.md) | draft    |" +:+ newline +:+
        "| [/api/routing](./api/routing.md)           | released |" +:+ newline).
Proof. reflexivity. Qed.

(** ** The keys of the table *)

Section keys.
Context `{Rosidl}.

Lemma visit_refs_field_type name entry refs ref :
  visit name = Ok (entry, refs) → ref ∈ refs →
  ∃ type, ref = strip_array_suffix (normalize_msg_name type).
Proof.
  assert (∀ spec, ref ∈ references spec →
                  ∃ type, ref = strip_array_suffix (normalize_msg_name type))
    as Hspec.
  { intros spec (value & -> & Hvalue)%list_elem_of_fmap.
    apply field_map_values in Hvalue as (f & _ & ->). by eexists. }
  unfold visit. destruct (is_documentation_msg name);
    [|by intros [= <- <-] ?%elem_of_nil].
  destruct (str_split "/" name) as [|pkg [|ext [|msg [|? ?]]]]; try done.
  destruct (decide (ext = "msg")); [|destruct (decide (ext = "srv"))].
  - destruct (resolve_msg_file_path name) as [path|]; simpl; [|done].
    destruct (parse_message_file pkg path) as [spec|]; simpl; [|done].
    intros [= <- <-]. apply Hspec.
  - destruct (resolve_msg_file_path name) as [path|]; simpl; [|done].
    destruct (parse_service_file pkg path) as [srv|]; simpl; [|done].
    intros [= <- <-] [?|?]%elem_of_app; by eapply Hspec.
  - by intros [= <- <-] ?%elem_of_nil.
Qed.

Lemma reachable_cases (names : gset string) n :
  reachable names n →
  n ∈ names ∨ ∃ type, n = strip_array_suffix (normalize_msg_name type).
Proof.
  intros [m Hm|m ref _ Href]; [by left|]. right.
  unfold refs_of in Href.
  destruct (visit m) as [[entry refs]|] eqn:Hvisit; [|by apply elem_of_nil in Href].
  by eapply visit_refs_field_type.
Qed.

(** X17: every key of the table of a completed run has exactly three
    parts, a package of the documentation, a kind and a name; its kind is
    [msg] or [srv], and a key of kind [srv] is one of the seed names,
    since a field never leads to a service; and for every key
    [resolve_msg_file_path] returns a path, so the generation of the type
    pages that follows does not raise there. *)
Theorem resolver_keys_resolve (names : gset string) (st : state) (key : string) :
  completes names st → key ∈ dict_keys (specs st) →
  ∃ pkg ext msg path,
    str_split "/" key = [pkg; ext; msg] ∧ pkg ∈ targets ∧
    (ext = "msg" ∨ (ext = "srv" ∧ key ∈ names)) ∧
    resolve_msg_file_path key = Ok path.
Proof.
  intros Hdone [entry Hget]%dict_get_is_Some.
  rewrite (completes_specs _ _ Hdone) in Hget.
  destruct (decide (key ∈ visited st)) as [Hvisited|]; [|done].
  apply (completes_visited _ _ Hdone), reachable_cases in Hvisited.
  unfold entry_of in Hget.
  destruct (visit key) as [[e refs]|] eqn:Hvisit; [|done]. subst e.
  unfold visit in Hvisit. unfold is_documentation_msg in Hvisit.
  destruct (str_split "/" key) as [|pkg [|ext [|msg [|? ?]]]] eqn:Hparts;
    try done; try (by destruct (bool_decide _)).
  destruct (bool_decide_reflect (pkg ∈ targets)) as [Hpkg|]; [|done].
  destruct (resolve_msg_file_path key) as [path|] eqn:Hpath.
  - exists pkg, ext, msg, path. split; [done|]. split; [done|]. split; [|done].
    destruct (decide (ext = "msg")) as [->|Hmsg]; [by left|]. right.
    destruct (decide (ext = "srv")) as [->|Hsrv]; [|done]. split; [done|].
    destruct Hvisited as [?|[type ->]]; [done|].
    by apply strip_normalize_parts in Hparts.
  - exfalso. destruct (decide (ext = "msg")); [done|].
    by destruct (decide (ext = "srv")).
Qed.
End keys.

(** X17 on the service of the concrete corpus. *)
Lemma resolver_keys_resolve_witness :
  ∃ pkg ext msg path,
    str_split "/" "autoware_adapi_v1_msgs/srv/SetRoute" = [pkg; ext; msg] ∧
    pkg ∈ targets ∧
    (ext = "msg" ∨
     (ext = "srv" ∧ "autoware_adapi_v1_msgs/srv/SetRoute" ∈ demo_names)) ∧
    resolve_msg_file_path (H := demo_rosidl) "autoware_adapi_v1_msgs/srv/SetRoute"
      = Ok path.
Proof.
  apply (resolver_keys_resolve (H := demo_rosidl) demo_names demo_final).
  - apply demo_completes.
  - apply dict_get_is_Some. vm_compute. by eexists.
Defined.
